(** * fedPrune: sparse-mask lifecycle and federated aggregation

    A shallow embedding of the mask-handling core of the repository:

    - [adapter/models.py]: [needs_mask], [PrunableNet.init_param_sizes],
      [_weights_by_layer], [layer_prune], [layer_grow], [reset_weights],
      [sparsity];
    - [dst_adapter.py]: [Client.train] (cost accounting and the
      readjustment branch) and the body of the server round loop
      (accumulation, reduction, reload, re-prune, mask enforcement).

    Modelling conventions.

    - A tensor is its flattened list of elements (every index expression of
      the source goes through [flatten]/[view(numel)] or is elementwise).
      Float elements are extended rationals [fval]: exact arithmetic on the
      finite values plus [PInf], [NInf] and [NaN] with the IEEE rules for
      special values; rounding, overflow and signed zeros are not
      represented.
    - A state dict is a [gmap string tensor]; the module tree is the list of
      named children together with the names of their parameters and
      buffers.
    - Python exceptions are [None] in the [option] monad.  Elementwise
      operations on tensors of different shapes (a fatal error in the
      source) are modelled by zipping.
    - A loop over the items of a dict is a fold over [map_to_list]; the
      loops of the program write, in each iteration, only entries named
      after the current key, so their result does not depend on the order
      of the items. *)

From Stdlib Require Import ZArith QArith Qcanon Qround Lia.
From stdpp Require Import base option list gmap strings numbers sorting.

Close Scope Qc_scope.
Close Scope Q_scope.
Local Open Scope string_scope.

(** ** Floating-point values *)

Module Float.

Inductive fval : Type :=
| Fin (q : Qc)
| PInf
| NInf
| NaN.

Global Instance fval_eq_dec : EqDecision fval.
Proof. solve_decision. Defined.

Definition zero : fval := Fin 0%Qc.
Definition one : fval := Fin 1%Qc.
Definition of_Z (z : Z) : fval := Fin (Qc_of_Z z).
Definition of_nat (n : nat) : fval := of_Z (Z.of_nat n).
Definition of_bool (b : bool) : fval := if b then one else zero.

Definition neg (a : fval) : fval :=
  match a with
  | Fin x => Fin (- x)%Qc
  | PInf => NInf
  | NInf => PInf
  | NaN => NaN
  end.

Definition add (a b : fval) : fval :=
  match a, b with
  | NaN, _ | _, NaN => NaN
  | PInf, NInf | NInf, PInf => NaN
  | PInf, _ | _, PInf => PInf
  | NInf, _ | _, NInf => NInf
  | Fin x, Fin y => Fin (x + y)%Qc
  end.

Definition sub (a b : fval) : fval := add a (neg b).

(** Sign of a finite value: [Lt], [Eq] or [Gt] with respect to 0. *)
Definition sgn (x : Qc) : comparison := (x ?= 0)%Qc.

Definition inf_of (c : comparison) : fval :=
  match c with
  | Gt => PInf
  | Lt => NInf
  | Eq => NaN
  end.

Definition mul (a b : fval) : fval :=
  match a, b with
  | NaN, _ | _, NaN => NaN
  | Fin x, Fin y => Fin (x * y)%Qc
  | PInf, Fin y | Fin y, PInf => inf_of (sgn y)
  | NInf, Fin y | Fin y, NInf => inf_of (CompOpp (sgn y))
  | PInf, PInf | NInf, NInf => PInf
  | PInf, NInf | NInf, PInf => NInf
  end.

Definition div (a b : fval) : fval :=
  match a, b with
  | NaN, _ | _, NaN => NaN
  | Fin x, Fin y =>
      if decide (y = 0%Qc) then inf_of (sgn x) else Fin (x / y)%Qc
  | Fin _, (PInf | NInf) => zero
  | PInf, Fin y => if decide (y < 0)%Qc then NInf else PInf
  | NInf, Fin y => if decide (y < 0)%Qc then PInf else NInf
  | (PInf | NInf), (PInf | NInf) => NaN
  end.

Definition abs (a : fval) : fval :=
  match a with
  | Fin x => if decide (x < 0)%Qc then Fin (- x)%Qc else Fin x
  | PInf | NInf => PInf
  | NaN => NaN
  end.

(** [a < b]; every comparison with [NaN] is false. *)
Definition ltb (a b : fval) : bool :=
  match a, b with
  | NaN, _ | _, NaN => false
  | Fin x, Fin y => bool_decide (x < y)%Qc
  | NInf, (Fin _ | PInf) => true
  | Fin _, PInf => true
  | _, _ => false
  end.

Definition gtb (a b : fval) : bool := ltb b a.

Definition floor (a : fval) : fval :=
  match a with
  | Fin x => of_Z (Qfloor x)
  | _ => a
  end.

(** Python's [int(x)] on a float: raises on [nan] and on the
    infinities, truncates toward zero otherwise. *)
Definition to_int (a : fval) : option Z :=
  match a with
  | Fin x => Some (if decide (x < 0)%Qc then Qceiling x else Qfloor x)
  | _ => None
  end.

(** Conversion to [torch.bool]: every value different from 0, [NaN]
    included, is [True]. *)
Definition to_bool (a : fval) : bool := negb (bool_decide (a = zero)).

(** [torch.nan_to_num(x, nan=0.0, posinf=0.0, neginf=0.0)]. *)
Definition nan_to_num (a : fval) : fval :=
  match a with
  | Fin x => Fin x
  | _ => zero
  end.

(** [F.threshold(x, threshold, value)]: [x] if [x > threshold], else
    [value]. *)
Definition threshold (thr value x : fval) : fval :=
  if gtb x thr then x else value.

(** The order [torch.topk] selects by: a total preorder in which [NaN]
    is the greatest element. *)
Definition rank_le (a b : fval) : bool :=
  match a, b with
  | _, NaN => true
  | NaN, _ => false
  | NInf, _ => true
  | _, NInf => false
  | _, PInf => true
  | PInf, _ => false
  | Fin x, Fin y => bool_decide (x ≤ y)%Qc
  end.

End Float.

Import Float.

(** ** Tensors and the torch primitives the program uses *)

Inductive tensor : Type :=
| TFloat (l : list fval)
| TBool (l : list bool).

Global Instance tensor_eq_dec : EqDecision tensor.
Proof. solve_decision. Defined.

Global Instance tensor_inhabited : Inhabited tensor := populate (TFloat []).

(** Reading a tensor at dtype float ([bool] promotes to 0/1) and at dtype
    bool ([.to(dtype=torch.bool)]). *)
Definition floats (t : tensor) : list fval :=
  match t with
  | TFloat l => l
  | TBool l => of_bool <$> l
  end.

Definition bools (t : tensor) : list bool :=
  match t with
  | TFloat l => to_bool <$> l
  | TBool l => l
  end.

Definition numel (t : tensor) : nat :=
  match t with
  | TFloat l => length l
  | TBool l => length l
  end.

(** [dst.copy_(src)]: the destination keeps its dtype. *)
Definition copy_ (dst src : tensor) : tensor :=
  match dst with
  | TFloat _ => TFloat (floats src)
  | TBool _ => TBool (bools src)
  end.

(** [torch.zeros_like(t, dtype=torch.float)]. *)
Definition zeros_like (t : tensor) : list fval := replicate (numel t) zero.

(** [x.view(x.numel())[idx] = v] for a list of indices. *)
Definition index_fill {A} (l : list A) (idx : list nat) (v : A) : list A :=
  foldl (λ acc i, <[i := v]> acc) l idx.

Definition tensor_index_fill (t : tensor) (idx : list nat) (b : bool) : tensor :=
  match t with
  | TFloat l => TFloat (index_fill l idx (of_bool b))
  | TBool l => TBool (index_fill l idx b)
  end.

(** [x[m] = v] for a boolean mask [m]. *)
Definition masked_fill {A} (l : list A) (m : list bool) (v : A) : list A :=
  imap (λ i x, match m !! i with Some true => v | _ => x end) l.

(** [x[m] = src[m]] for a boolean mask [m]. *)
Definition masked_assign {A} (l : list A) (m : list bool) (src : list A) : list A :=
  imap (λ i x, match m !! i, src !! i with
               | Some true, Some y => y
               | _, _ => x
               end) l.

Definition tadd (a b : list fval) : list fval := zip_with add a b.
Definition tmul (a b : list fval) : list fval := zip_with mul a b.
Definition tdiv (a b : list fval) : list fval := zip_with div a b.
Definition tscale (c : fval) (a : list fval) : list fval := mul c <$> a.
Definition tsum (a : list fval) : fval := foldl add zero a.
Definition count_nonzero (t : tensor) : nat :=
  length (filter (λ b, b = true) (bools t)).

(** [torch.topk(x, k, largest)] returns the indices of the [k] largest
    (or smallest) elements, and raises when [k] exceeds the number of
    elements.  Which of several equal elements is taken is not specified by
    torch; here the indices come from a merge sort of the (index, value)
    pairs. *)
Definition topk_order (largest : bool) : relation (nat * fval) :=
  λ p q, if largest then rank_le q.2 p.2 = true else rank_le p.2 q.2 = true.

Global Instance topk_order_dec largest p q : Decision (topk_order largest p q).
Proof. unfold topk_order. destruct largest; apply _. Defined.

Definition argsort (largest : bool) (x : list fval) : list nat :=
  fst <$> merge_sort (topk_order largest) (imap (λ i v, (i, v)) x).

Definition topk (x : list fval) (k : nat) (largest : bool) : option (list nat) :=
  if decide (k ≤ length x)%nat then Some (take k (argsort largest x)) else None.

(** ** Names *)

(** [s.endswith(suffix)]. *)
Fixpoint endswith (s suffix : string) : bool :=
  if decide (s = suffix) then true
  else match s with
       | EmptyString => false
       | String _ s' => endswith s' suffix
       end.

(** [name[:-k]]. *)
Definition chop (k : nat) (s : string) : string :=
  String.substring 0 (String.length s - k) s.

Definition mask_name (name : string) : string := name +:+ "_mask".

(** [needs_mask] of adapter/models.py. *)
Definition needs_mask (name : string) : bool := endswith name "weight".

(** A [for] loop whose body may raise. *)
Fixpoint foldM {A B} (f : B → A → option B) (b : B) (l : list A) : option B :=
  match l with
  | [] => Some b
  | x :: l => b' ← f b x; foldM f b' l
  end.

(** ** adapter/models.py: [PrunableNet] *)

(** The layer types [_weights_by_layer] distinguishes with [isinstance]. *)
Inductive layer_kind : Type :=
| ConvNd (in_channels out_channels : Z) (kernel_size : list Z)
| Linear (in_features out_features : Z)
| OtherModule.

Global Instance layer_kind_eq_dec : EqDecision layer_kind.
Proof. solve_decision. Defined.

(** One entry of [named_children()]: the layer's name and type and the
    names of its [named_parameters()] and [named_buffers()]. *)
Record child : Type := Child {
  cname : string;
  ckind : layer_kind;
  cparams : list string;
  cbuffers : list string
}.

Global Instance child_eq_dec : EqDecision child.
Proof. solve_decision. Defined.

(** A network: its module tree, the tensors of [state_dict()] under their
    qualified names, the [.grad] of the parameters that have one, and the
    attributes set by [init_param_sizes] and [reset_weights]. *)
Record PrunableNet : Type := Net {
  children : list child;
  state : gmap string tensor;
  grad : gmap string tensor;
  mask_size : Z;
  param_size : Z;
  communication_sparsity : fval
}.

Definition set_state (net : PrunableNet) (st : gmap string tensor) : PrunableNet :=
  Net (children net) st (grad net) (mask_size net) (param_size net)
      (communication_sparsity net).

(** Qualified name of a parameter or buffer of a child. *)
Definition key (c : child) (n : string) : string := cname c +:+ "." +:+ n.

(** The keys of [state_dict()]: the qualified names of the parameters and
    buffers of every child.  In the source they are the keys of one dict,
    hence pairwise distinct. *)
Definition own_names (c : child) : list string :=
  key c <$> (cparams c ++ cbuffers c)%list.

Definition qualified_names (net : PrunableNet) : list string :=
  c ← children net; own_names c.

(** [init_param_sizes]. *)
Definition init_param_sizes (net : PrunableNet) : PrunableNet :=
  let '(ms, ps) :=
    foldl (λ acc c,
      foldl (λ '(ms, ps) name,
        let param_size := Z.of_nat (numel (state net !!! key c name)) in
        let ps := (ps + param_size * 32)%Z in
        if needs_mask name then ((ms + param_size)%Z, ps) else (ms, ps))
        acc (cparams c))
      (0%Z, 0%Z) (children net) in
  Net (children net) (state net) (grad net) ms ps (communication_sparsity net).

(** [clear_gradients]. *)
Definition clear_gradients (net : PrunableNet) : PrunableNet :=
  Net (children net) (state net) ∅ (mask_size net) (param_size net)
      (communication_sparsity net).

Definition Zsum (l : list Z) : Z := foldr Z.add 0%Z l.
Definition Zprod (l : list Z) : Z := foldr Z.mul 1%Z l.

(** [1 - (neur_in + neur_out) / (neur_in * neur_out)] on Python integers:
    a zero product raises [ZeroDivisionError]. *)
Definition er_sparsity (neur_in neur_out : Z) : option fval :=
  if decide (neur_in * neur_out = 0)%Z then None
  else Some (sub one (div (of_Z (neur_in + neur_out)) (of_Z (neur_in * neur_out)))).

(** The body of the first loop of [_weights_by_layer] for one layer. *)
Definition raw_sparsity (sparsity : fval) (sparsity_distribution : string)
    (c : child) : option fval :=
  if decide (sparsity_distribution = "uniform") then Some sparsity
  else match ckind c with
       | ConvNd neur_in neur_out kernel_size =>
           if decide (sparsity_distribution = "er") then
             er_sparsity neur_in neur_out
           else if decide (sparsity_distribution = "erk") then
             Some (sub one (div (of_Z (neur_in + neur_out + Zsum kernel_size))
                                (of_Z (neur_in * neur_out * Zprod kernel_size))))
           else None
       | Linear neur_in neur_out =>
           if decide (sparsity_distribution = "er") then
             er_sparsity neur_in neur_out
           else if decide (sparsity_distribution = "erk") then
             er_sparsity neur_in neur_out
           else None
       | OtherModule => None
       end.

(** [n_weights[i]]: the elements of all parameters of the layer. *)
Definition n_weights (st : gmap string tensor) (c : child) : Z :=
  foldl (λ acc pname, (acc + Z.of_nat (numel (st !!! key c pname)))%Z) 0%Z
        (cparams c).

(** [_weights_by_layer]: target number of nonzero parameters per layer. *)
Definition weights_by_layer (sparsity : fval) (sparsity_distribution : string)
    (net : PrunableNet) : option (gmap string fval) :=
  sparsities ← mapM (raw_sparsity sparsity sparsity_distribution) (children net);
  let n := n_weights (state net) <$> children net in
  let factor :=
    div (mul sparsity (of_Z (Zsum n)))
        (tsum (zip_with (λ s k, mul s (of_Z k)) sparsities n)) in
  let sparsities := (λ s, mul s factor) <$> sparsities in
  let n := zip_with (λ s k, floor (mul (sub one s) (of_Z k))) sparsities n in
  Some (foldl (λ d '(name, k), <[name := k]> d) ∅
              (zip (cname <$> children net) n)).

(** [n_total]: the elements of all buffers of the layer. *)
Definition n_total (st : gmap string tensor) (c : child) : Z :=
  foldl (λ acc bname, (acc + Z.of_nat (numel (st !!! key c bname)))%Z) 0%Z
        (cbuffers c).

(** The loop over [layer.named_buffers()] that writes [b] at [indices]
    into the buffer called [pname + '_mask']. *)
Definition write_mask (c : child) (pname : string) (indices : list nat)
    (b : bool) (st : gmap string tensor) : gmap string tensor :=
  foldl (λ st bname,
    if decide (bname = mask_name pname) then
      <[key c bname := tensor_index_fill (st !!! key c bname) indices b]> st
    else st) st (cbuffers c).

(** The body of the loop over [layer.named_parameters()] in
    [layer_prune]. *)
Definition prune_param (pruning_type : string) (n_prune : nat) (c : child)
    (st : gmap string tensor) (pname : string) : option (gmap string tensor) :=
  if needs_mask pname then
    prune_indices ← topk (abs <$> floats (st !!! key c pname)) n_prune false;
    let st :=
      if decide (pruning_type = "hard") then
        <[key c pname :=
            tensor_index_fill (st !!! key c pname) prune_indices false]> st
      else st in
    Some (write_mask c pname prune_indices false st)
  else Some st.

(** [n_prune] of a layer, when [int(..)] does not raise. *)
Definition n_prune_of (weights : gmap string fval) (st : gmap string tensor)
    (c : child) : option Z :=
  w ← weights !! cname c;
  to_int (sub (of_Z (n_total st c)) w).

(** The body of the loop over [named_children()] in [layer_prune]. *)
Definition prune_child (weights : gmap string fval) (pruning_type : string)
    (st : gmap string tensor) (c : child) : option (gmap string tensor) :=
  n_prune ← n_prune_of weights st c;
  if decide (n_prune >= n_total st c ∨ n_prune < 0)%Z then Some st
  else foldM (prune_param pruning_type (Z.to_nat n_prune) c) st (cparams c).

(** [layer_prune]. *)
Definition layer_prune (sparsity : fval) (sparsity_distribution : string)
    (pruning_type : string) (net : PrunableNet) : option PrunableNet :=
  weights ← weights_by_layer sparsity sparsity_distribution net;
  st ← foldM (prune_child weights pruning_type) (state net) (children net);
  Some (set_state net st).

(** [n_nonzero]: the nonzero elements of all buffers of the layer. *)
Definition n_nonzero (st : gmap string tensor) (c : child) : Z :=
  foldl (λ acc bname, (acc + Z.of_nat (count_nonzero (st !!! key c bname)))%Z)
        0%Z (cbuffers c).

(** The body of the loop over [layer.named_parameters()] in [layer_grow];
    a parameter without [.grad] raises. *)
Definition grow_param (gr : gmap string tensor) (n_grow : nat) (c : child)
    (st : gmap string tensor) (pname : string) : option (gmap string tensor) :=
  if needs_mask pname then
    g ← gr !! key c pname;
    grow_indices ← topk (abs <$> floats g) n_grow true;
    let st :=
      <[key c pname :=
          tensor_index_fill (st !!! key c pname) grow_indices false]> st in
    Some (write_mask c pname grow_indices true st)
  else Some st.

Definition n_grow_of (weights : gmap string fval) (st : gmap string tensor)
    (c : child) : option Z :=
  w ← weights !! cname c;
  to_int (sub w (of_Z (n_nonzero st c))).

(** The body of the loop over [named_children()] in [layer_grow]. *)
Definition grow_child (weights : gmap string fval) (gr : gmap string tensor)
    (st : gmap string tensor) (c : child) : option (gmap string tensor) :=
  n_grow ← n_grow_of weights st c;
  if decide (n_grow < 0)%Z then Some st
  else foldM (grow_param gr (Z.to_nat n_grow) c) st (cparams c).

(** [layer_grow]. *)
Definition layer_grow (sparsity : fval) (sparsity_distribution : string)
    (net : PrunableNet) : option PrunableNet :=
  weights ← weights_by_layer sparsity sparsity_distribution net;
  st ← foldM (grow_child weights (grad net)) (state net) (children net);
  Some (set_state net st).

(** [named_buffers()]. *)
Definition named_buffers (net : PrunableNet) : list (string * tensor) :=
  c ← children net; (λ bname, (key c bname, state net !!! key c bname)) <$> cbuffers c.

(** [sparsity(buffers)].  Without any buffer called [..mask] the source
    divides the integer 0 by the integer 0 and raises. *)
Definition sparsity_of (buffers : list (string * tensor)) : option fval :=
  let '(seen, n_ones, mask_size) :=
    foldl (λ '(seen, n_ones, mask_size) '(name, buf),
      if endswith name "mask" then
        (true, add n_ones (tsum (floats buf)), (mask_size + numel buf)%nat)
      else (seen, n_ones, mask_size))
      (false, zero, 0%nat) buffers in
  if seen then Some (sub one (div n_ones (of_nat mask_size))) else None.

Definition sparsity (net : PrunableNet) : option fval :=
  sparsity_of (named_buffers net).

(** [load_state_dict(sd)] (strict): the keys have to be those of the
    module, every tensor keeps its dtype. *)
Definition load_state_dict (sd : gmap string tensor) (net : PrunableNet)
    : option PrunableNet :=
  if decide (dom sd = dom (state net)) then
    Some (set_state net
            (map_imap (λ k old, Some (copy_ old (sd !!! k))) (state net)))
  else None.

Definition tensor_masked_assign (x : tensor) (m : list bool) (src : tensor) : tensor :=
  match x with
  | TFloat l => TFloat (masked_assign l m (floats src))
  | TBool l => TBool (masked_assign l m (bools src))
  end.

Definition tensor_masked_fill (x : tensor) (m : list bool) (b : bool) : tensor :=
  match x with
  | TFloat l => TFloat (masked_fill l m (of_bool b))
  | TBool l => TBool (masked_fill l m b)
  end.

(** [torch.equal]. *)
Definition tensor_equal (a b : tensor) : bool := bool_decide (floats a = floats b).

(** The state threaded through the loop of [reset_weights]: the dict
    [local_state], the dict [new_state] and the flag [mask_changed].
    [new_state[name] = local_state[name]] binds the same tensor object
    under both dicts, so each in-place write below updates both. *)
Record reset_state : Type := ResetState {
  local_state : gmap string tensor;
  new_state : gmap string tensor;
  mask_changed : bool
}.

(** The body of the loop [for name, param in param_source.items()] of
    [reset_weights].  [global_state = None] makes [param_source] the dict
    [local_state] itself. *)
Definition reset_body (global_state : option (gmap string tensor))
    (use_global_mask global_communication_mask : bool) (pruning_type : string)
    (s : reset_state) (name : string) : option reset_state :=
  if endswith name "_mask" then Some s
  else
    let param_source := default (local_state s) global_state in
    let apply_mask_source :=
      if use_global_mask then param_source else local_state s in
    let copy_mask_source :=
      if global_communication_mask then local_state s else apply_mask_source in
    param ← param_source !! name;
    x ← local_state s !! name;
    if needs_mask name
       && bool_decide (is_Some (apply_mask_source !! mask_name name)) then
      mask_to_apply ← bools <$> apply_mask_source !! mask_name name;
      mask_to_copy ← bools <$> copy_mask_source !! mask_name name;
      let x := tensor_masked_assign x mask_to_apply param in
      let x :=
        if decide (pruning_type = "hard") then
          tensor_masked_fill x (negb <$> mask_to_apply) false
        else x in
      old_mask ← local_state s !! mask_name name;
      let m := copy_ old_mask (TBool mask_to_copy) in
      let local := <[mask_name name := m]> (<[name := x]> (local_state s)) in
      Some (ResetState local
              (<[mask_name name := m]> (<[name := x]> (new_state s)))
              (if negb (tensor_equal (local !!! mask_name name) (TBool mask_to_copy))
               then true else mask_changed s))
    else
      let x := copy_ x param in
      Some (ResetState (<[name := x]> (local_state s))
                       (<[name := x]> (new_state s)) (mask_changed s)).

(** [reset_weights]: the new network and [mask_changed]. *)
Definition reset_weights (global_state : option (gmap string tensor))
    (use_global_mask global_communication_mask : bool) (pruning_type : string)
    (net : PrunableNet) : option (PrunableNet * bool) :=
  let local := state net in
  let param_source := default local global_state in
  let apply_mask_source := if use_global_mask then param_source else local in
  communication_sparsity ← sparsity_of (map_to_list apply_mask_source);
  s ← foldM (reset_body global_state use_global_mask global_communication_mask
               pruning_type)
            (ResetState local ∅ false) (map_to_list param_source).*1;
  net' ← load_state_dict (new_state s)
         (Net (children net) (state net) (grad net) (mask_size net)
              (param_size net) communication_sparsity);
  Some (net', mask_changed s).

(** ** dst_adapter.py: options, clients and the server round *)

(** The command-line options the modelled code reads. *)
Record Args : Type := {
  args_sparsity : fval;
  rate_decay_method : string;
  rate_decay_end : Z;
  readjustment_ratio : fval;
  pruning_begin : Z;
  pruning_interval : Z;
  rounds_between_readjustments : Z;
  remember_old : bool;
  sparsity_distribution : string;
  final_sparsity : fval;
  pruning_type : string;
  min_votes : Z;
  fp16 : bool
}.

(** What [Client.train] returns. *)
Record train_result : Type := TrainResult {
  result_state : gmap string tensor;
  dl_cost : fval;
  ul_cost : fval
}.

(** The three accumulators of a round. *)
Record accumulators : Type := Acc {
  aggregated_params : gmap string tensor;
  aggregated_params_for_mask : gmap string tensor;
  aggregated_masks : gmap string tensor
}.

(** [(1-sparsity) * mask_size * width + (param_size - mask_size * width')]. *)
Definition param_cost (sp : fval) (mask_size param_size width width' : Z) : fval :=
  add (mul (mul (sub one sp) (of_Z mask_size)) (of_Z width))
      (of_Z (param_size - mask_size * width')).

(** The download cost of the parameters in [Client.train]. *)
Definition dl_param_cost (net : PrunableNet) : option fval :=
  sp ← sparsity net;
  Some (param_cost sp (mask_size net) (param_size net) 32 32).

(** The last statement of [Client.train] that adds to [ul_cost]: the
    two branches of [if args.fp16]. *)
Definition ul_param_cost (args : Args) (net : PrunableNet) : option fval :=
  sp ← sparsity net;
  if fp16 args then Some (param_cost sp (mask_size net) (param_size net) 16 16)
  else Some (param_cost sp (mask_size net) (param_size net) 32 32).

(** The cost of uploading the mask after a readjustment. *)
Definition ul_mask_cost (net : PrunableNet) : option fval :=
  sp ← sparsity net;
  Some (mul (sub one sp) (of_Z (mask_size net))).

(** [a % b] on Python integers. *)
Definition py_mod (a b : Z) : option Z :=
  if decide (b = 0)%Z then None else Some (a mod b)%Z.

(** [x / d] for a Python float [x] and a Python integer [d]. *)
Definition py_div (x : fval) (d : Z) : option fval :=
  if decide (d = 0)%Z then None else Some (div x (of_Z d)).

(** The sparsity wanted at the end of a round, by linear interpolation. *)
Definition round_sparsity (args : Args) (server_round : Z) : option fval :=
  if decide (server_round <= rate_decay_end args)%Z then
    a ← py_div (mul (args_sparsity args)
                    (of_Z (rate_decay_end args - server_round)))
               (rate_decay_end args);
    b ← py_div (mul (final_sparsity args) (of_Z server_round))
               (rate_decay_end args);
    Some (add a b)
  else Some (final_sparsity args).

(** The loop that zero-initialises the accumulators: its body and the
    loop. *)
Definition init_step (acc : accumulators) (item : string * tensor) : accumulators :=
  let '(name, param) := item in
  if endswith name "_mask" then acc
  else
    Acc (<[name := TFloat (zeros_like param)]> (aggregated_params acc))
        (<[name := TFloat (zeros_like param)]> (aggregated_params_for_mask acc))
        (if needs_mask name then
           <[name := TFloat (zeros_like param)]> (aggregated_masks acc)
         else aggregated_masks acc).

Definition init_accumulators (global_params : gmap string tensor) : accumulators :=
  foldl init_step (Acc ∅ ∅ ∅) (map_to_list global_params).

(** [t.add_(u)] on a float accumulator. *)
Definition add_ (t : tensor) (u : list fval) : tensor := TFloat (tadd (floats t) u).

(** The body of the loop [for name, cl_param in cl_weight_params.items()]
    for a client with [train_size] samples. *)
Definition accumulate_param (args : Args) (global_params : gmap string tensor)
    (train_size : nat) (cl_mask_params : gmap string tensor)
    (acc : accumulators) (item : string * tensor) : option accumulators :=
  let '(name, cl_param) := item in
  let n := of_nat train_size in
  match cl_mask_params !! name with
  | Some cl_mask =>
      sv_mask ← global_params !! mask_name name;
      ap ← aggregated_params acc !! name;
      apm ← aggregated_params_for_mask acc !! name;
      am ← aggregated_masks acc !! name;
      let contribution := tmul (tscale n (floats cl_param)) (floats cl_mask) in
      let ap := add_ ap contribution in
      let apm := add_ apm contribution in
      let am := add_ am (tscale n (floats cl_mask)) in
      if remember_old args then
        let sv_mask := tensor_masked_fill sv_mask (bools cl_mask) false in
        sv_param ← global_params !! name;
        let apm := add_ apm (tmul (tscale n (floats sv_param)) (floats sv_mask)) in
        let am := add_ am (tscale n (floats sv_mask)) in
        Some (Acc (<[name := ap]> (aggregated_params acc))
                  (<[name := apm]> (aggregated_params_for_mask acc))
                  (<[name := am]> (aggregated_masks acc)))
      else
        Some (Acc (<[name := ap]> (aggregated_params acc))
                  (<[name := apm]> (aggregated_params_for_mask acc))
                  (<[name := am]> (aggregated_masks acc)))
  | None =>
      ap ← aggregated_params acc !! name;
      Some (Acc (<[name := add_ ap (tscale n (floats cl_param))]>
                   (aggregated_params acc))
                (aggregated_params_for_mask acc) (aggregated_masks acc))
  end.

(** The reduction of one entry of [aggregated_params]. *)
Definition reduce_param (args : Args) (total_train_size : nat)
    (acc : accumulators) (name : string) : option accumulators :=
  ap ← aggregated_params acc !! name;
  match aggregated_masks acc !! name with
  | None =>
      Some (Acc (<[name := TFloat ((λ x, div x (of_nat total_train_size))
                                     <$> floats ap)]> (aggregated_params acc))
                (aggregated_params_for_mask acc) (aggregated_masks acc))
  | Some am =>
      apm ← aggregated_params_for_mask acc !! name;
      let am := threshold (of_Z (min_votes args)) zero <$> floats am in
      let ap := tdiv (floats ap) am in
      let apm := tdiv (floats apm) am in
      let am := tdiv am am in
      let ap := nan_to_num <$> ap in
      let apm := nan_to_num <$> ap in
      let am := nan_to_num <$> am in
      Some (Acc (<[name := TFloat ap]> (aggregated_params acc))
                (<[name := TFloat apm]> (aggregated_params_for_mask acc))
                (<[name := TFloat am]> (aggregated_masks acc)))
  end.

(** The loop [for name, param in aggregated_params.items()]. *)
Definition reduce (args : Args) (total_train_size : nat) (acc : accumulators)
    : option accumulators :=
  foldM (reduce_param args total_train_size) acc
        (map_to_list (aggregated_params acc)).*1.

(** "masks are parameters too!" *)
Definition masks_as_params (acc : accumulators) : accumulators :=
  foldl (λ acc '(name, mask),
    Acc (<[mask_name name := mask]> (aggregated_params acc))
        (<[mask_name name := mask]> (aggregated_params_for_mask acc))
        (aggregated_masks acc))
    acc (map_to_list (aggregated_masks acc)).

(** "discard old weights and apply new mask": the body of the loop over
    [aggregated_masks] after the re-prune, and the loop. *)
Definition new_mask_step (global_params : gmap string tensor)
    (acc : accumulators) (name : string) : option accumulators :=
  new_mask ← global_params !! mask_name name;
  let ap := <[mask_name name := new_mask]> (aggregated_params acc) in
  w ← ap !! name;
  Some (Acc (<[name := tensor_masked_fill w (negb <$> bools new_mask) false]> ap)
            (aggregated_params_for_mask acc) (aggregated_masks acc)).

Definition apply_new_mask (global_params : gmap string tensor)
    (acc : accumulators) : option accumulators :=
  foldM (new_mask_step global_params) acc
        (map_to_list (aggregated_masks acc)).*1.

(** The round from the reduction to the final [load_state_dict]. *)
Definition finish_round (args : Args) (round_sp : fval) (total_train_size : nat)
    (acc : accumulators) (global_model : PrunableNet) : option PrunableNet :=
  acc ← reduce args total_train_size acc;
  let acc := masks_as_params acc in
  global_model ← load_state_dict (aggregated_params_for_mask acc) global_model;
  sp ← sparsity global_model;
  global_model ←
    (if ltb sp round_sp then
       layer_prune round_sp (sparsity_distribution args) (pruning_type args)
                   global_model
     else Some global_model);
  acc ← apply_new_mask (state global_model) acc;
  load_state_dict (aggregated_params acc) global_model.

(** The loop that splits a client's state dict into [cl_weight_params]
    and [cl_mask_params] (its body, then the loop); [bf16] is the round
    trip through [torch.bfloat16] applied when [args.fp16] is set. *)
Definition split_step (args : Args) (bf16 : fval → fval)
    (acc : gmap string tensor * gmap string tensor) (item : string * tensor)
    : gmap string tensor * gmap string tensor :=
  let '(cl_weight_params, cl_mask_params) := acc in
  let '(name, cl_param) := item in
  let weight name :=
    (<[name := if fp16 args then TFloat (bf16 <$> floats cl_param)
               else cl_param]> cl_weight_params, cl_mask_params) in
  if endswith name "_orig" then weight (chop 5 name)
  else if endswith name "_mask" then
    (cl_weight_params, <[chop 5 name := cl_param]> cl_mask_params)
  else weight name.

Definition split_client_params (args : Args) (bf16 : fval → fval)
    (cl_params : gmap string tensor)
    : gmap string tensor * gmap string tensor :=
  foldl (split_step args bf16) (∅, ∅) (map_to_list cl_params).

(** Adding one client's report to the accumulators. *)
Definition accumulate (args : Args) (bf16 : fval → fval)
    (global_params : gmap string tensor) (train_size : nat)
    (cl_params : gmap string tensor) (acc : accumulators) : option accumulators :=
  let '(cl_weight_params, cl_mask_params) :=
    split_client_params args bf16 cl_params in
  foldM (accumulate_param args global_params train_size cl_mask_params) acc
        (map_to_list cl_weight_params).

Section Training.

(** The numeric part of local training is kept abstract: a minibatch
    type, the optimizer states and the co-learner network as [aux], one
    forward/backward/optimizer step on the client's network, and the
    recomputation of the gradients on a batch. *)
Context {batch aux : Type}.
Variable batch_len : batch → nat.
Variable sgd_step :
  option (gmap string tensor) → batch → PrunableNet * aux → PrunableNet * aux.
Variable reset_optimizer : aux → aux.
Variable backward : batch → PrunableNet → PrunableNet.
Variable bf16 : fval → fval.
(** [np.cos(x * np.pi)]. *)
Variable cos_pi : fval → fval.

Record Client : Type := MkClient {
  net : PrunableNet;
  client_aux : aux;
  train_data : list batch;
  local_epochs : nat;
  curr_epoch : Z;
  initial_global_params : option (gmap string tensor)
}.

(** [Client.train_size]. *)
Definition train_size (cl : Client) : nat :=
  foldr Nat.add 0%nat (batch_len <$> train_data cl).

(** Truth value of a dict-valued argument that defaults to [None]. *)
Definition truthy (d : option (gmap string tensor)) : bool :=
  match d with
  | Some m => negb (bool_decide (m = ∅))
  | None => false
  end.

(** The loop over the minibatches of one epoch: an optimizer step, then
    [self.reset_weights()], which applies the local mask.  Returns the
    last batch, which the readjustment reuses. *)
Definition train_epoch (global_params : option (gmap string tensor))
    (s : PrunableNet * aux) (data : list batch)
    : option (PrunableNet * aux * option batch) :=
  foldM (λ '(net, a, _) b,
    let '(net, a) := sgd_step global_params b (net, a) in
    '(net, _) ← reset_weights None false false "hard" net;
    Some (net, a, Some b))
    (s, None) data.

(** The readjustment branch of [Client.train]: prune to
    [prune_sparsity], grow back to [sparsity]. *)
Definition readjustment (args : Args) (sparsity : fval) (last : option batch)
    (net : PrunableNet) : option PrunableNet :=
  let prune_sparsity :=
    add sparsity (mul (sub one sparsity) (readjustment_ratio args)) in
  b ← last;
  let net := backward b net in
  net ← layer_prune prune_sparsity (sparsity_distribution args)
                    (pruning_type args) net;
  layer_grow sparsity (sparsity_distribution args) net.

(** One iteration of [for epoch in range(self.local_epochs)]. *)
Definition train_one_epoch (args : Args) (readjust : bool)
    (global_params : option (gmap string tensor)) (sparsity : fval)
    (s : Client * fval) : option (Client * fval) :=
  let '(cl, ul_cost) := s in
  '(net, a, last) ← train_epoch global_params (net cl, client_aux cl)
                                 (train_data cl);
  r ← py_mod (curr_epoch cl - pruning_begin args) (pruning_interval args);
  '(net, ul_cost) ←
    (if bool_decide (r = 0%Z) && readjust then
       net ← readjustment args sparsity last net;
       c ← ul_mask_cost net;
       Some (net, add ul_cost c)
     else Some (net, ul_cost));
  Some (MkClient net a (train_data cl) (local_epochs cl)
                 (curr_epoch cl + 1)%Z (initial_global_params cl), ul_cost).

(** The branch [if global_params:] at the start of [Client.train]:
    adopt the global parameters and mask, charge the download. *)
Definition receive_global
    (global_params initial_global_params' : option (gmap string tensor))
    (cl : Client) : option (Client * fval) :=
  match reset_weights global_params true false "hard" (net cl) with
  | None => None
  | Some (net1, changed) =>
      let a := reset_optimizer (client_aux cl) in
      let dl_cost := if changed then add zero (of_Z (mask_size net1)) else zero in
      if truthy (initial_global_params cl) then
        c ← dl_param_cost net1;
        Some (MkClient net1 a (train_data cl) (local_epochs cl)
                       (curr_epoch cl) (initial_global_params cl),
              add dl_cost c)
      else
        Some (MkClient net1 a (train_data cl) (local_epochs cl)
                       (curr_epoch cl) initial_global_params', dl_cost)
  end.

(** [Client.train].  [readjust] is the module-level variable the round
    loop sets; a missing keyword [sparsity] takes the default
    [args.sparsity]. *)
Definition train (args : Args) (readjust : bool)
    (global_params initial_global_params' : option (gmap string tensor))
    (sparsity_kw : option fval) (cl : Client)
    : option (Client * train_result) :=
  let sparsity := default (args_sparsity args) sparsity_kw in
  '(cl, dl_cost) ←
    (if truthy global_params then
       receive_global global_params initial_global_params' cl
     else Some (cl, zero));
  '(cl, ul_cost) ←
    foldM (λ s _, train_one_epoch args readjust global_params sparsity s)
          (cl, zero) (seq 0 (local_epochs cl));
  c ← ul_param_cost args (net cl);
  Some (cl, TrainResult (state (net cl)) dl_cost (add ul_cost c)).

(** [PrunableNet._decay]. *)
Definition decay (t : Z) (alpha : fval) (t_end : Z) : fval :=
  if decide (t >= t_end)%Z then zero
  else mul (div alpha (of_Z 2))
           (add one (cos_pi (div (of_Z t) (of_Z t_end)))).

(** The module-level [readjust] of a round. *)
Definition readjust_of (args : Args) (server_round : Z) : option bool :=
  let ratio :=
    if decide (rate_decay_method args = "cosine") then
      mul (readjustment_ratio args)
          (decay server_round (readjustment_ratio args) (rate_decay_end args))
    else readjustment_ratio args in
  r ← py_mod (server_round - 1) (rounds_between_readjustments args);
  Some (bool_decide (r = 0%Z) && gtb ratio zero).

(** The state of the loop over the sampled clients. *)
Record round_state : Type := RoundState {
  clients : gmap nat Client;
  acc : accumulators;
  round_sp : option fval;
  download_cost : gmap nat fval;
  upload_cost : gmap nat fval
}.

(** The body of [for client_id in client_indices]: the call
    [client.train(global_params=.., initial_global_params=..)] passes no
    [sparsity]. *)
Definition client_step (args : Args) (server_round : Z)
    (global_params initial_global_params' : gmap string tensor)
    (s : round_state) (client_id : nat) : option round_state :=
  client ← clients s !! client_id;
  readjust ← readjust_of args server_round;
  sp ← round_sparsity args server_round;
  '(client, train_result) ←
    train args readjust (Some global_params) (Some initial_global_params')
          None client;
  let client :=
    MkClient (clear_gradients (net client)) (client_aux client)
             (train_data client) (local_epochs client) (curr_epoch client)
             (initial_global_params client) in
  acc ← accumulate args bf16 global_params (train_size client)
                   (result_state train_result) (acc s);
  Some (RoundState (<[client_id := client]> (clients s)) acc (Some sp)
                   (<[client_id := dl_cost train_result]> (download_cost s))
                   (<[client_id := ul_cost train_result]> (upload_cost s))).

(** One iteration of [for server_round in range(args.rounds)], up to the
    final [load_state_dict]; evaluation and logging are left out. *)
Definition server_round_step (args : Args) (server_round : Z)
    (initial_global_params' : gmap string tensor)
    (client_indices : list nat) (global_model : PrunableNet)
    (cls : gmap nat Client) (dl ul : gmap nat fval)
    : option (PrunableNet * round_state) :=
  let global_params := state global_model in
  s ← foldM (client_step args server_round global_params initial_global_params')
            (RoundState cls (init_accumulators global_params) None dl ul)
            client_indices;
  sp ← round_sp s;
  let total :=
    foldr Nat.add 0%nat
          ((λ i, from_option train_size 0%nat (clients s !! i)) <$> client_indices) in
  global_model ← finish_round args sp total (acc s) global_model;
  Some (global_model, s).

End Training.

(** ** The driver's own nan_to_num, and the vocabulary of the statements *)

(** The number of sampled clients whose reported mask of [name] has bit
    [i] set. *)
Definition voters {batch aux : Type} (cls : gmap nat (@Client batch aux))
    (client_indices : list nat) (name : string) (i : nat) : nat :=
  length (filter (λ id, (cls !! id) ≫= (λ c,
            bools (state (net c) !!! mask_name name) !! i) = Some true)
          client_indices).

(** Closed goals are settled by evaluation; two rationals are compared
    through the decision procedure, since their canonicity proofs need not
    be syntactically equal. *)
Ltac evaluate :=
  first [ vm_compute; reflexivity
        | apply (bool_decide_unpack _); vm_compute; exact I ].

Definition stay_cleared (st st' : gmap string tensor) : Prop :=
  ∀ k (i : nat), bools (st !!! k) !! i = Some false →
                 bools (st' !!! k) !! i = Some false.

(** Two tensors of the same dtype. *)
Definition same_dtype (a b : tensor) : Prop :=
  match a, b with
  | TFloat _, TFloat _ | TBool _, TBool _ => True
  | _, _ => False
  end.

Section reset_local_defs.

Variable pt : string.
Variable L0 : gmap string tensor.

Definition weight_ok (k : string) (t t' : tensor) : Prop :=
  same_dtype t t' ∧
  ∀ i : nat,
    floats t' !! i = floats t !! i ∨
    (pt = "hard" ∧ bools (L0 !!! mask_name k) !! i = Some false ∧
     floats t' !! i = Some zero).

Definition entry_ok (k : string) (o o' : option tensor) : Prop :=
  match o, o' with
  | None, None => True
  | Some t, Some t' =>
      if endswith k "_mask" then same_dtype t t' ∧ bools t' = bools t
      else weight_ok k t t'
  | _, _ => False
  end.

Definition reset_inv (s : reset_state) : Prop :=
  mask_changed s = false ∧
  ∀ k, entry_ok k (L0 !! k) (local_state s !! k) ∧
       (new_state s !! k = None ∨ new_state s !! k = local_state s !! k).

End reset_local_defs.

Section fold_local_defs.

Context {A S V : Type} (view : S → string → V) (key : A → string).
Context (f : S → A → option S).

Definition local_on (l : list A) : Prop :=
  ∀ s a s' k, a ∈ l → f s a = Some s' → k ≠ key a → view s' k = view s k.

End fold_local_defs.

(** The three accumulators at one name. *)
Definition entry (acc : accumulators) (k : string)
    : option tensor * option tensor * option tensor :=
  (aggregated_params acc !! k, aggregated_params_for_mask acc !! k,
   aggregated_masks acc !! k).

(** The reduced value of a parameter and of its vote counts. *)
Definition reduced_mask (args : Args) (am : tensor) : list fval :=
  let m := threshold (of_Z (min_votes args)) zero <$> floats am in
  nan_to_num <$> tdiv m m.

Definition reduced_param (args : Args) (ap am : tensor) : list fval :=
  let m := threshold (of_Z (min_votes args)) zero <$> floats am in
  nan_to_num <$> tdiv (floats ap) m.

(** Names of mask-bearing parameters are not themselves mask names. *)
Definition masks_wf (acc : accumulators) : Prop :=
  ∀ k, is_Some (aggregated_masks acc !! k) → endswith k "_mask" = false.

(** The mask-bearing parameters of a state dict. *)
Definition mask_bearing (global_params : gmap string tensor) (name : string) : Prop :=
  is_Some (global_params !! name) ∧ endswith name "_mask" = false ∧
  needs_mask name = true.

(** Two accumulators with the same keys. *)
Definition same_keys (a b : accumulators) : Prop :=
  ∀ k, (is_Some (aggregated_params a !! k) ↔ is_Some (aggregated_params b !! k)) ∧
       (is_Some (aggregated_params_for_mask a !! k) ↔
        is_Some (aggregated_params_for_mask b !! k)) ∧
       (is_Some (aggregated_masks a !! k) ↔ is_Some (aggregated_masks b !! k)).



(** The numbers of elements of the listed parameters of a layer. *)
Definition layer_elements (st : gmap string tensor) (c : child)
    (names : list string) : list Z :=
  (λ p, Z.of_nat (numel (st !!! key c p))) <$> names.

(** All parameter elements of a network, and those of the parameters
    that take a mask. *)
Definition param_count (net : PrunableNet) : Z :=
  Zsum (c ← children net; layer_elements (state net) c (cparams c)).

Definition maskable_count (net : PrunableNet) : Z :=
  Zsum (c ← children net;
        layer_elements (state net) c
          (filter (λ p, needs_mask p = true) (cparams c))).

(** [nan_to_num(x, nan, posinf, neginf)] of dst_adapter.py: three masked
    assignments on a clone, in this order. *)
Definition dst_nan_to_num (x : list fval) (nan posinf neginf : fval) : list fval :=
  let x := (λ v, if decide (v = NaN) then nan else v) <$> x in
  let x := (λ v, if decide (v = NInf) then neginf else v) <$> x in
  (λ v, if decide (v = PInf) then posinf else v) <$> x.

(** A set bit of a tensor whose name ends in [_mask] stays set. *)
Definition masks_stay_set (st st' : gmap string tensor) : Prop :=
  ∀ k (i : nat), endswith k "_mask" = true →
    bools (st !!! k) !! i = Some true → bools (st' !!! k) !! i = Some true.

(** What the loop of [reset_weights] has, for a name that is no mask, in
    [local_state] and [new_state] under the name and under its mask. *)
Definition reset_view (s : reset_state) (k : string)
    : option (option tensor * option tensor * option tensor * option tensor) :=
  if endswith k "_mask" then None
  else Some (local_state s !! k, local_state s !! mask_name k,
             new_state s !! k, new_state s !! mask_name k).

(** ** Example data *)

Module Examples.

Definition q (a : Z) (b : positive) : fval := Fin (Q2Qc (a # b)).

(** A network with a 3x3 convolution (9 weights, 1 bias) and a linear
    layer with 4 weights and 4 biases, all masks set. *)
Definition conv : child :=
  Child "conv" (ConvNd 1 1 [3; 3]%Z) ["weight"; "bias"] ["weight_mask"].
Definition fc : child :=
  Child "fc" (Linear 1 4) ["weight"; "bias"] ["weight_mask"].

Definition conv_fc_state : gmap string tensor :=
  list_to_map
    [("conv.weight", TFloat [q 4 1; q (-3) 1; q 1 2; q 2 1; q (-1) 4;
                             q 5 1; q 3 1; q (-2) 1; q 1 1]);
     ("conv.bias", TFloat [q 1 10]);
     ("conv.weight_mask", TBool (replicate 9 true));
     ("fc.weight", TFloat [q 1 1; q (-2) 1; q 3 1; q (-4) 1]);
     ("fc.bias", TFloat [q 0 1; q 0 1; q 0 1; q 0 1]);
     ("fc.weight_mask", TBool (replicate 4 true))].

Definition conv_fc : PrunableNet :=
  init_param_sizes (Net [conv; fc] conv_fc_state ∅ 0 0 zero).

(** The same network after the second and fourth weight of [fc] were
    masked out (their values are still in place, as after a 'soft'
    prune or an optimizer step). *)
Definition masked_net : PrunableNet :=
  set_state conv_fc
    (<["fc.weight_mask" := TBool [true; false; true; false]]> conv_fc_state).

(** A network with the convolution only, and the options of a run:
    sparsity 0.5 annealed to 0.9 over 10 rounds, a readjustment in every
    round and epoch, readjustment ratio 0.5. *)
Definition conv_net : PrunableNet :=
  init_param_sizes
    (Net [conv]
       (list_to_map
          [("conv.weight", TFloat [q 4 1; q (-3) 1; q 1 2; q 2 1; q (-1) 4;
                                   q 5 1; q 3 1; q (-2) 1; q 1 1]);
           ("conv.bias", TFloat [q 1 10]);
           ("conv.weight_mask", TBool (replicate 9 true))])
       ∅ 0 0 zero).

Definition run_args (min_votes : Z) (remember_old fp16 : bool) : Args :=
  {| args_sparsity := q 1 2; rate_decay_method := "constant";
     rate_decay_end := 10; readjustment_ratio := q 1 2;
     pruning_begin := 0; pruning_interval := 1;
     rounds_between_readjustments := 1; remember_old := remember_old;
     sparsity_distribution := "uniform"; final_sparsity := q 9 10;
     pruning_type := "hard"; min_votes := min_votes; fp16 := fp16 |}.

(** A stand-in for local training: minibatches are numbered, each is a
    pair (inputs, labels); a step leaves the parameters where they are
    (learning rate 0) and the gradient of a weight is 1 where its mask
    is 0 and 0 elsewhere. *)
Definition ex_batch_len (_ : nat) : nat := 2.

Definition ex_backward (_ : nat) (net : PrunableNet) : PrunableNet :=
  Net (children net) (state net)
      (map_imap (λ k t,
         if endswith k "_mask" then None
         else (λ m, TFloat (of_bool <$> (negb <$> bools m)))
                <$> state net !! mask_name k) (state net))
      (mask_size net) (param_size net) (communication_sparsity net).

Definition ex_sgd_step (_ : option (gmap string tensor)) (b : nat)
    (s : PrunableNet * unit) : PrunableNet * unit :=
  (ex_backward b s.1, s.2).

Definition ex_reset_optimizer (a : unit) : unit := a.
Definition ex_bf16 (x : fval) : fval := x.
Definition ex_cos_pi (x : fval) : fval := zero.

(** The server's model after the initial prune to [args.sparsity], and
    two clients with one minibatch and one local epoch each. *)
Definition global_net : PrunableNet :=
  default conv_net (layer_prune (q 1 2) "uniform" "hard" conv_net).

Definition ex_client : @Client nat unit := MkClient conv_net tt [0%nat] 1 0 None.

Definition ex_clients : gmap nat (@Client nat unit) :=
  <[0%nat := ex_client]> (<[1%nat := ex_client]> ∅).

Definition ex_round (args : Args) (server_round : Z) :=
  server_round_step ex_batch_len ex_sgd_step ex_reset_optimizer ex_backward
    ex_bf16 ex_cos_pi args server_round (state global_net) [0%nat; 1%nat]
    global_net ex_clients ∅ ∅.

(** What a client reports for a model with one masked weight of three
    elements, and the server's copy of that model. *)
Definition report (w : list fval) (m : list bool) : gmap string tensor :=
  <["fc.weight" := TFloat w]> (<["fc.weight_mask" := TBool m]> ∅).

Definition server_copy : gmap string tensor :=
  report [zero; zero; zero] [true; true; true].

(** The aggregation of two reports from clients with [n] samples each, up
    to the reduction: masks [1,0,1] and [1,1,0], weights [2,x,4] and
    [3,5,y]. *)
Definition two_reports (args : Args) (n : nat) (x y : fval)
    : option accumulators :=
  acc ← accumulate args id server_copy n
          (report [q 2 1; x; q 4 1] [true; false; true])
          (init_accumulators server_copy);
  acc ← accumulate args id server_copy n
          (report [q 3 1; q 5 1; y] [true; true; false]) acc;
  reduce args (n + n) acc.

(** Bounds within which the exact arithmetic of [Float] is that of the
    source's float32 tensors for this scenario: with at most
    [max_batches] minibatches the train size and its products with 2, 3,
    4 and 5 are integers below 2^24, hence exact, and a masked-out weight
    of magnitude at most [max_placeholder] times the train size does not
    overflow before it is multiplied by the mask bit 0. *)
Definition max_batches : Z := 2 ^ 20.
Definition max_placeholder : Qc := Qc_of_Z (2 ^ 100).

(** One client with 2 samples and "remember old": the server holds
    weight [7,7,7] with mask [1,1,1], the client reports weight [0,3,3]
    with mask [0,1,1]. *)
Definition remember_args : Args := run_args 0 true false.

Definition remembered : option accumulators :=
  accumulate remember_args id
    (report [q 7 1; q 7 1; q 7 1] [true; true; true]) 2
    (report [zero; q 3 1; q 3 1] [false; true; true])
    (init_accumulators (report [q 7 1; q 7 1; q 7 1] [true; true; true])).

(** The server's model of [Examples] after a backward pass whose two
    largest gradient magnitudes lie on the active weights 0 and 1. *)
Definition grow_input : PrunableNet :=
  Net (children global_net) (state global_net)
      (list_to_map
         [("conv.weight",
           TFloat [q 9 1; q (-8) 1; q 1 1; q 1 1; q 1 1; q 1 1; q 1 1;
                   q 1 1; q 1 1]);
          ("conv.bias", TFloat [zero])])
      (mask_size global_net) (param_size global_net)
      (communication_sparsity global_net).

End Examples.

Import Examples.

(** * Properties *)

(** ** Example data *)

(** * Properties *)

(** ** Lists *)

Lemma length_index_fill {A} (l : list A) idx v :
  length (index_fill l idx v) = length l.
Proof.
  unfold index_fill. revert l.
  induction idx as [|j idx IH]; intros l; simpl; [done|].
  by rewrite IH, length_insert.
Qed.

Lemma index_fill_lookup {A} (l : list A) idx v (i : nat) :
  index_fill l idx v !! i =
    if decide (i ∈ idx ∧ (i < length l)%nat) then Some v else l !! i.
Proof.
  unfold index_fill. revert l.
  induction idx as [|j idx IH]; intros l; cbn [foldl].
  - rewrite decide_False; [done|]. intros [H _]. by apply elem_of_nil in H.
  - rewrite IH, length_insert.
    destruct (decide (i ∈ idx ∧ (i < length l)%nat)) as [[H1 H2]|H1].
    + rewrite decide_True; [done|]. split; [by right|done].
    + destruct (decide (i = j)) as [->|Hne].
      * destruct (decide (j < length l)%nat) as [Hlt|Hge].
        -- rewrite list_lookup_insert_eq by done.
           rewrite decide_True; [done|]. split; [by left|done].
        -- rewrite list_insert_ge by lia.
           rewrite decide_False; [done|]. intros [_ ?]. lia.
      * rewrite list_lookup_insert_ne by done.
        rewrite decide_False; [done|]. intros [H ?]. apply H1.
        apply elem_of_cons in H as [?|?]; [congruence|done].
Qed.

Lemma index_fill_lookup_in {A} (l : list A) idx v (i : nat) :
  i ∈ idx → (i < length l)%nat → index_fill l idx v !! i = Some v.
Proof. intros. rewrite index_fill_lookup. by rewrite decide_True. Qed.

Lemma index_fill_lookup_notin {A} (l : list A) idx v (i : nat) :
  i ∉ idx → index_fill l idx v !! i = l !! i.
Proof. intros. rewrite index_fill_lookup. rewrite decide_False; tauto. Qed.

Lemma masked_fill_lookup {A} (l : list A) m v (i : nat) :
  masked_fill l m v !! i =
    (λ x, match m !! i with Some true => v | _ => x end) <$> l !! i.
Proof. unfold masked_fill. by rewrite list_lookup_imap. Qed.

(** ** The selection order of [topk] *)

Lemma rank_le_total a b : rank_le a b = true ∨ rank_le b a = true.
Proof.
  destruct a as [x| | |], b as [y| | |]; simpl; auto.
  destruct (Qclt_le_dec y x) as [H|H].
  - right. apply bool_decide_eq_true. by apply Qclt_le_weak.
  - left. by apply bool_decide_eq_true.
Qed.

Lemma rank_le_trans a b c :
  rank_le a b = true → rank_le b c = true → rank_le a c = true.
Proof.
  destruct a as [x| | |], b as [y| | |], c as [z| | |]; simpl; try done.
  rewrite !bool_decide_eq_true. apply Qcle_trans.
Qed.

Global Instance topk_order_total largest : Total (topk_order largest).
Proof.
  intros p q. unfold topk_order. destruct largest; apply rank_le_total.
Qed.

Global Instance topk_order_trans largest : Transitive (topk_order largest).
Proof.
  intros p q r. unfold topk_order. destruct largest; eauto using rank_le_trans.
Qed.

Lemma imap_pair_fst {A} (x : list A) (k : nat) :
  (imap (λ i v, (k + i, v)%nat) x).*1 = seq k (length x).
Proof.
  revert k. induction x as [|a x IH]; intros k; simpl; [done|].
  f_equal; [lia|].
  rewrite <- (IH (S k)). f_equal. apply imap_ext. intros. simpl. f_equal. lia.
Qed.

Lemma argsort_perm largest x : argsort largest x ≡ₚ seq 0 (length x).
Proof.
  unfold argsort. rewrite merge_sort_Permutation.
  by rewrite <- (imap_pair_fst x 0).
Qed.

Lemma elem_of_imap_pair {A} (x : list A) i v :
  (i, v) ∈ imap (λ i v, (i, v)) x ↔ x !! i = Some v.
Proof.
  rewrite list_elem_of_lookup. split.
  - intros [j Hj]. rewrite list_lookup_imap in Hj.
    destruct (x !! j) eqn:E; simplify_eq/=. done.
  - intros H. exists i. rewrite list_lookup_imap, H. done.
Qed.

(** What [topk] returns: [k] distinct valid indices, and no index left
    out beats a selected one. *)
Lemma topk_spec x k largest idx :
  topk x k largest = Some idx →
  length idx = k ∧ NoDup idx ∧ (∀ i, i ∈ idx → (i < length x)%nat) ∧
  (∀ i j vi vj, i ∈ idx → j ∉ idx → x !! i = Some vi → x !! j = Some vj →
     if largest then rank_le vj vi = true else rank_le vi vj = true).
Proof.
  unfold topk. case_decide as Hk; [|done]. intros [= <-].
  pose proof (argsort_perm largest x) as Hp.
  assert (Hnd : NoDup (argsort largest x)).
  { rewrite Hp. apply NoDup_seq. }
  split; [|split; [|split]].
  - rewrite length_take. rewrite Hp, length_seq. lia.
  - rewrite <- (take_drop k) in Hnd. by apply NoDup_app in Hnd as [? _].
  - intros i Hi. apply elem_of_take in Hi as (j & Hj & _).
    apply list_elem_of_lookup_2 in Hj. rewrite Hp in Hj.
    apply elem_of_seq in Hj. lia.
  - intros i j vi vj Hi Hj Hxi Hxj.
    set (s := merge_sort (topk_order largest) (imap (λ i v, (i, v)) x)) in *.
    assert (Hs : StronglySorted (topk_order largest) s)
      by (apply StronglySorted_merge_sort; apply _).
    assert (Hin : ∀ p, p ∈ s ↔ x !! p.1 = Some p.2).
    { intros [a b]. unfold s. rewrite merge_sort_Permutation.
      apply elem_of_imap_pair. }
    unfold argsort in Hi, Hj. fold s in Hi, Hj.
    rewrite <- fmap_take in Hi, Hj.
    assert (Hj' : (j, vj) ∈ drop k s).
    { assert ((j, vj) ∈ s) as H by by apply Hin.
      rewrite <- (take_drop k s) in H. apply elem_of_app in H as [H|H]; [|done].
      exfalso. apply Hj. apply list_elem_of_fmap. by exists (j, vj). }
    apply list_elem_of_fmap in Hi as ([i' vi'] & -> & Hi'). simpl in *.
    assert (vi' = vi) as ->.
    { apply (subseteq_take k s) in Hi'. apply Hin in Hi'. simpl in Hi'. congruence. }
    rewrite <- (take_drop k s) in Hs.
    pose proof (StronglySorted_app_1_elem_of _ _ _ _ _ Hs Hi' Hj') as HR.
    unfold topk_order in HR. by destruct largest.
Qed.

(** ** Loops *)

Lemma foldM_app {A B} (f : B → A → option B) b l1 l2 :
  foldM f b (l1 ++ l2)%list = foldM f b l1 ≫= λ b', foldM f b' l2.
Proof.
  revert b. induction l1 as [|x l1 IH]; intros b; simpl; [done|].
  destruct (f b x) as [b'|]; simpl; [apply IH|done].
Qed.

Lemma foldM_inv {A B} (f : B → A → option B) (P : B → Prop) l b b' :
  foldM f b l = Some b' →
  P b →
  (∀ b x b', x ∈ l → P b → f b x = Some b' → P b') →
  P b'.
Proof.
  revert b. induction l as [|x l IH]; intros b Hf Hb Hstep; simpl in Hf.
  - by simplify_eq.
  - destruct (f b x) as [b1|] eqn:E; simpl in Hf; [|done].
    apply (IH b1); [done| |].
    + eapply Hstep; [by left|done..].
    + intros ? y ? Hy. apply Hstep. by right.
Qed.

Lemma foldl_inv {A B} (f : B → A → B) (P : B → Prop) l b :
  P b → (∀ b x, x ∈ l → P b → P (f b x)) → P (foldl f b l).
Proof.
  revert b. induction l as [|x l IH]; intros b Hb Hstep; simpl; [done|].
  apply IH; [apply Hstep; [by left|done]|].
  intros ? y Hy. apply Hstep. by right.
Qed.

(** ** Index writes on tensors *)

Lemma to_bool_of_bool b : to_bool (of_bool b) = b.
Proof. by destruct b; vm_compute. Qed.

Lemma numel_tensor_index_fill t idx b :
  numel (tensor_index_fill t idx b) = numel t.
Proof. destruct t; simpl; apply length_index_fill. Qed.

Lemma length_floats t : length (floats t) = numel t.
Proof. destruct t; simpl; [done|]. by rewrite length_fmap. Qed.

Lemma length_bools t : length (bools t) = numel t.
Proof. destruct t; simpl; [|done]. by rewrite length_fmap. Qed.

Lemma floats_tensor_index_fill t idx b (i : nat) :
  floats (tensor_index_fill t idx b) !! i =
    if decide (i ∈ idx ∧ (i < numel t)%nat) then Some (of_bool b)
    else floats t !! i.
Proof.
  destruct t as [l|l]; simpl.
  - apply index_fill_lookup.
  - rewrite !list_lookup_fmap, index_fill_lookup.
    by destruct (decide _).
Qed.

Lemma bools_tensor_index_fill t idx b (i : nat) :
  bools (tensor_index_fill t idx b) !! i =
    if decide (i ∈ idx ∧ (i < numel t)%nat) then Some b else bools t !! i.
Proof.
  destruct t as [l|l]; simpl.
  - rewrite !list_lookup_fmap, index_fill_lookup.
    destruct (decide _); simpl; [|done]. by rewrite to_bool_of_bool.
  - apply index_fill_lookup.
Qed.

Lemma index_fill_idemp {A} (l : list A) idx v :
  index_fill (index_fill l idx v) idx v = index_fill l idx v.
Proof.
  apply list_eq. intros i.
  rewrite !index_fill_lookup, length_index_fill.
  by destruct (decide _).
Qed.

Lemma tensor_index_fill_idemp t idx b :
  tensor_index_fill (tensor_index_fill t idx b) idx b = tensor_index_fill t idx b.
Proof. destruct t; simpl; f_equal; apply index_fill_idemp. Qed.

(** Writing [False]/0 never turns a cleared bit on. *)
Lemma tensor_index_fill_false_mono t idx (i : nat) :
  bools t !! i = Some false →
  bools (tensor_index_fill t idx false) !! i = Some false.
Proof. intros H. rewrite bools_tensor_index_fill. by destruct (decide _). Qed.

(** ** Names *)

Lemma key_inj c : Inj (=) (=) (key c).
Proof.
  intros p p' H. unfold key in H.
  apply String.app_inj in H. by apply String.app_inj in H.
Qed.

(** ** [write_mask] *)

Lemma write_mask_ne c pname idx b st k :
  k ≠ key c (mask_name pname) → write_mask c pname idx b st !! k = st !! k.
Proof.
  intros Hk. unfold write_mask.
  apply (foldl_inv _ (λ st', st' !! k = st !! k)); [done|].
  intros st' bname _ IH. destruct (decide _) as [->|]; [|done].
  by rewrite lookup_insert_ne.
Qed.

Lemma write_mask_fold_notin c pname idx b bs (st : gmap string tensor) :
  mask_name pname ∉ bs →
  foldl (λ st bname,
    if decide (bname = mask_name pname) then
      <[key c bname := tensor_index_fill (st !!! key c bname) idx b]> st
    else st) st bs = st.
Proof.
  revert st. induction bs as [|bname bs IH]; intros st Hn; simpl; [done|].
  apply not_elem_of_cons in Hn as [? ?].
  rewrite decide_False by done. by apply IH.
Qed.

Lemma write_mask_fold_eq c pname idx b bs (st : gmap string tensor) :
  mask_name pname ∈ bs →
  foldl (λ st bname,
    if decide (bname = mask_name pname) then
      <[key c bname := tensor_index_fill (st !!! key c bname) idx b]> st
    else st) st bs !! key c (mask_name pname) =
    Some (tensor_index_fill (st !!! key c (mask_name pname)) idx b).
Proof.
  revert st. induction bs as [|bname bs IH]; intros st Hin.
  - by apply elem_of_nil in Hin.
  - cbn [foldl]. destruct (decide (bname = mask_name pname)) as [->|Hne].
    + destruct (decide (mask_name pname ∈ bs)) as [Hin'|Hnin].
      * rewrite IH by done.
        by rewrite lookup_total_insert_eq, tensor_index_fill_idemp.
      * rewrite write_mask_fold_notin by done. by rewrite lookup_insert_eq.
    + apply elem_of_cons in Hin as [?|Hin]; [congruence|]. by apply IH.
Qed.

Lemma write_mask_notin c pname idx b st :
  mask_name pname ∉ cbuffers c → write_mask c pname idx b st = st.
Proof. apply write_mask_fold_notin. Qed.

Lemma write_mask_eq c pname idx b st :
  mask_name pname ∈ cbuffers c →
  write_mask c pname idx b st !! key c (mask_name pname) =
    Some (tensor_index_fill (st !!! key c (mask_name pname)) idx b).
Proof. apply write_mask_fold_eq. Qed.

Lemma append_cons a s t : String a s +:+ t = String a (s +:+ t).
Proof. done. Qed.

Lemma length_append s t :
  String.length (s +:+ t) = (String.length s + String.length t)%nat.
Proof.
  induction s as [|a s IH]; [done|]. rewrite append_cons. simpl. by rewrite IH.
Qed.

Lemma append_inj_r s1 s2 t : s1 +:+ t = s2 +:+ t → s1 = s2.
Proof.
  revert s2. induction s1 as [|a s1 IH]; intros [|b s2] H.
  - done.
  - apply (f_equal String.length) in H. rewrite !length_append in H.
    simpl in H. lia.
  - apply (f_equal String.length) in H. rewrite !length_append in H.
    simpl in H. lia.
  - rewrite !append_cons in H. injection H as -> H. f_equal. by apply IH.
Qed.

Global Instance mask_name_inj : Inj (=) (=) mask_name.
Proof. intros a b. apply append_inj_r. Qed.

Lemma mask_name_ne name : mask_name name ≠ name.
Proof.
  intros H. apply (f_equal String.length) in H.
  unfold mask_name in H. rewrite length_append in H. simpl in H. lia.
Qed.

(** ** Cleared bits stay cleared *)

Lemma stay_cleared_refl st : stay_cleared st st.
Proof. by intros k i. Qed.

Lemma stay_cleared_trans st1 st2 st3 :
  stay_cleared st1 st2 → stay_cleared st2 st3 → stay_cleared st1 st3.
Proof. intros H1 H2 k i ?. by apply H2, H1. Qed.

Lemma stay_cleared_insert (st : gmap string tensor) k idx :
  stay_cleared st (<[k := tensor_index_fill (st !!! k) idx false]> st).
Proof.
  intros k' i H. destruct (decide (k = k')) as [->|].
  - rewrite lookup_total_insert_eq. by apply tensor_index_fill_false_mono.
  - by rewrite lookup_total_insert_ne.
Qed.

Lemma write_mask_stay_cleared c pname idx st :
  stay_cleared st (write_mask c pname idx false st).
Proof.
  unfold write_mask.
  apply (foldl_inv _ (stay_cleared st)); [apply stay_cleared_refl|].
  intros st' bname _ IH. destruct (decide _); [|done].
  eapply stay_cleared_trans; [done|apply stay_cleared_insert].
Qed.

Lemma prune_param_stay_cleared pt n c st pname st' :
  prune_param pt n c st pname = Some st' → stay_cleared st st'.
Proof.
  unfold prune_param.
  destruct (needs_mask pname); [|intros [= <-]; apply stay_cleared_refl].
  destruct (topk _ _ _) as [idx|]; simpl; [|done]. intros [= <-].
  eapply stay_cleared_trans; [|apply write_mask_stay_cleared].
  destruct (decide _); [apply stay_cleared_insert|apply stay_cleared_refl].
Qed.

Lemma prune_child_stay_cleared weights pt st c st' :
  prune_child weights pt st c = Some st' → stay_cleared st st'.
Proof.
  unfold prune_child. destruct (n_prune_of _ _ _) as [n|]; simpl; [|done].
  destruct (decide _); [intros [= <-]; apply stay_cleared_refl|].
  intros H. apply (foldM_inv _ (stay_cleared st) _ _ _ H).
  - apply stay_cleared_refl.
  - intros st1 p st2 _ H1 H2. eapply stay_cleared_trans; [done|].
    by eapply prune_param_stay_cleared.
Qed.

Lemma layer_prune_stay_cleared sp dist pt net net' :
  layer_prune sp dist pt net = Some net' →
  stay_cleared (state net) (state net').
Proof.
  unfold layer_prune. destruct (weights_by_layer _ _ _) as [w|]; simpl; [|done].
  destruct (foldM _ _ _) as [st|] eqn:H; simpl; [|done]. intros [= <-]. simpl.
  apply (foldM_inv _ (stay_cleared (state net)) _ _ _ H).
  - apply stay_cleared_refl.
  - intros st1 c st2 _ H1 H2. eapply stay_cleared_trans; [done|].
    by eapply prune_child_stay_cleared.
Qed.

(** ** What one layer's pruning touches *)

Lemma prune_param_frame pt n c (st : gmap string tensor) pname st' k :
  prune_param pt n c st pname = Some st' →
  k ≠ key c pname →
  (mask_name pname ∈ cbuffers c → k ≠ key c (mask_name pname)) →
  st' !! k = st !! k.
Proof.
  unfold prune_param. destruct (needs_mask pname); [|by intros [= <-]].
  destruct (topk _ _ _) as [idx|]; simpl; [|done]. intros [= <-] Hk Hm.
  destruct (decide (mask_name pname ∈ cbuffers c)) as [Hin|Hnin].
  - rewrite write_mask_ne by auto.
    destruct (decide _); [by rewrite lookup_insert_ne|done].
  - rewrite write_mask_notin by done.
    destruct (decide _); [by rewrite lookup_insert_ne|done].
Qed.

Lemma prune_param_own pt n c (st : gmap string tensor) pname st' k :
  prune_param pt n c st pname = Some st' →
  pname ∈ cparams c → k ∉ own_names c → st' !! k = st !! k.
Proof.
  intros H Hp Hk. eapply prune_param_frame; [done|..].
  - intros ->. apply Hk. unfold own_names.
    apply list_elem_of_fmap. exists pname. split; [done|].
    apply elem_of_app. by left.
  - intros Hm ->. apply Hk. unfold own_names.
    apply list_elem_of_fmap. exists (mask_name pname). split; [done|].
    apply elem_of_app. by right.
Qed.

Lemma prune_param_content pt n c (st : gmap string tensor) pname st' :
  prune_param pt n c st pname = Some st' →
  needs_mask pname = true →
  ∃ idx, topk (abs <$> floats (st !!! key c pname)) n false = Some idx ∧
    st' !! key c pname =
      (if decide (pt = "hard") then
         Some (tensor_index_fill (st !!! key c pname) idx false)
       else st !! key c pname) ∧
    (mask_name pname ∈ cbuffers c →
     st' !! key c (mask_name pname) =
       Some (tensor_index_fill (st !!! key c (mask_name pname)) idx false)).
Proof.
  unfold prune_param. intros H Hn. rewrite Hn in H.
  destruct (topk _ _ _) as [idx|]; simpl in H; [|done]. injection H as <-.
  assert (Hne : key c pname ≠ key c (mask_name pname)).
  { intros E. apply key_inj in E. by apply (mask_name_ne pname). }
  exists idx. split; [done|]. split.
  - rewrite write_mask_ne by done.
    destruct (decide _); [by rewrite lookup_insert_eq|done].
  - intros Hin. rewrite write_mask_eq by done.
    destruct (decide _); [by rewrite lookup_total_insert_ne|done].
Qed.

Lemma prune_child_own weights pt (st : gmap string tensor) c st' k :
  prune_child weights pt st c = Some st' →
  k ∉ own_names c → st' !! k = st !! k.
Proof.
  unfold prune_child. destruct (n_prune_of _ _ _) as [n|]; simpl; [|done].
  destruct (decide _); [by intros [= <-]|].
  intros H Hk. apply (foldM_inv _ (λ st', st' !! k = st !! k) _ _ _ H); [done|].
  intros st1 p st2 Hp H1 H2. rewrite <- H1. by eapply prune_param_own.
Qed.

Lemma foldM_prune_child_frame weights pt cs (st : gmap string tensor) st' k :
  foldM (prune_child weights pt) st cs = Some st' →
  (∀ c, c ∈ cs → k ∉ own_names c) → st' !! k = st !! k.
Proof.
  intros H Hk. apply (foldM_inv _ (λ st', st' !! k = st !! k) _ _ _ H); [done|].
  intros st1 c st2 Hc H1 H2. rewrite <- H1.
  eapply prune_child_own; [done|]. by apply Hk.
Qed.

Lemma n_total_ext (st st' : gmap string tensor) c :
  (∀ k, k ∈ own_names c → st' !! k = st !! k) → n_total st' c = n_total st c.
Proof.
  intros H. unfold n_total.
  assert (Hb : ∀ b, b ∈ cbuffers c → st' !!! key c b = st !!! key c b).
  { intros b Hb. unfold lookup_total, map_lookup_total. rewrite H; [done|].
    unfold own_names. apply list_elem_of_fmap. exists b. split; [done|].
    apply elem_of_app. by right. }
  revert Hb. generalize 0%Z. induction (cbuffers c) as [|b bs IH]; intros z Hb.
  - done.
  - simpl. rewrite Hb by by left. apply IH. intros ? ?. apply Hb. by right.
Qed.

Lemma lookup_total_eq (st st' : gmap string tensor) k :
  st' !! k = st !! k → st' !!! k = st !!! k.
Proof. intros H. unfold lookup_total, map_lookup_total. by rewrite H. Qed.

Lemma own_names_disjoint pre c post k :
  NoDup ((pre ++ c :: post)%list ≫= own_names) →
  k ∈ own_names c →
  (∀ c', c' ∈ pre → k ∉ own_names c') ∧ (∀ c', c' ∈ post → k ∉ own_names c').
Proof.
  rewrite bind_app, bind_cons. intros Hnd Hk.
  apply NoDup_app in Hnd as (_ & Hpre & Hnd).
  apply NoDup_app in Hnd as (_ & Hpost & _).
  split.
  - intros c' Hc' Hk'. apply (Hpre k).
    + apply list_elem_of_bind. eauto.
    + apply elem_of_app. by left.
  - intros c' Hc' Hk'. apply (Hpost k); [done|].
    apply list_elem_of_bind. eauto.
Qed.

Lemma own_names_NoDup net c :
  NoDup (qualified_names net) → c ∈ children net → NoDup (own_names c).
Proof.
  intros Hnd Hc. apply list_elem_of_split in Hc as (pre & post & E).
  unfold qualified_names in Hnd. rewrite E, bind_app, bind_cons in Hnd.
  apply NoDup_app in Hnd as (_ & _ & Hnd).
  by apply NoDup_app in Hnd as (? & _ & _).
Qed.

(** The pruning of one layer inside [layer_prune]: it starts from a state
    that agrees with the initial one on the layer's own tensors, and what
    it leaves there is what the network ends with. *)
Lemma layer_prune_at_child sp dist pt net net' weights c :
  NoDup (qualified_names net) →
  layer_prune sp dist pt net = Some net' →
  weights_by_layer sp dist net = Some weights →
  c ∈ children net →
  ∃ st1 st2,
    (∀ k, k ∈ own_names c → st1 !! k = state net !! k) ∧
    prune_child weights pt st1 c = Some st2 ∧
    (∀ k, k ∈ own_names c → state net' !! k = st2 !! k).
Proof.
  intros Hnd Hp Hw Hc. unfold layer_prune in Hp. rewrite Hw in Hp. simpl in Hp.
  destruct (foldM _ _ _) as [st|] eqn:Hf; simpl in Hp; [|done].
  injection Hp as <-. simpl.
  apply list_elem_of_split in Hc as (pre & post & E).
  unfold qualified_names in Hnd. rewrite E in Hnd, Hf.
  rewrite foldM_app in Hf.
  destruct (foldM _ _ pre) as [st1|] eqn:H1; simpl in Hf; [|done].
  destruct (prune_child weights pt st1 c) as [st2|] eqn:H2; simpl in Hf; [|done].
  exists st1, st2. split; [|split; [done|]].
  - intros k Hk. eapply foldM_prune_child_frame; [done|].
    by apply (own_names_disjoint pre c post k).
  - intros k Hk. eapply foldM_prune_child_frame; [done|].
    by apply (own_names_disjoint pre c post k).
Qed.

Lemma n_prune_of_ext weights (st st' : gmap string tensor) c :
  (∀ k, k ∈ own_names c → st' !! k = st !! k) →
  n_prune_of weights st' c = n_prune_of weights st c.
Proof. intros H. unfold n_prune_of. by rewrite (n_total_ext st st' c). Qed.

Lemma elem_of_own_names_param c p : p ∈ cparams c → key c p ∈ own_names c.
Proof.
  intros. apply list_elem_of_fmap. exists p. split; [done|].
  apply elem_of_app. by left.
Qed.

Lemma elem_of_own_names_buffer c b : b ∈ cbuffers c → key c b ∈ own_names c.
Proof.
  intros. apply list_elem_of_fmap. exists b. split; [done|].
  apply elem_of_app. by right.
Qed.

Lemma param_buffer_ne c p b :
  NoDup (own_names c) → p ∈ cparams c → b ∈ cbuffers c → key c p ≠ key c b.
Proof.
  unfold own_names. rewrite fmap_app. intros Hnd Hp Hb E.
  apply NoDup_app in Hnd as (_ & Hd & _).
  apply (Hd (key c p)); [by apply list_elem_of_fmap_2|].
  rewrite E. by apply list_elem_of_fmap_2.
Qed.

(** The result of a layer's [for pname, param in named_parameters()] loop
    on one masked parameter. *)
Lemma prune_params_content pt n c (st st' : gmap string tensor) p idx :
  NoDup (own_names c) →
  foldM (prune_param pt n c) st (cparams c) = Some st' →
  p ∈ cparams c → needs_mask p = true → mask_name p ∈ cbuffers c →
  topk (abs <$> floats (st !!! key c p)) n false = Some idx →
  st' !! key c p =
    (if decide (pt = "hard") then
       Some (tensor_index_fill (st !!! key c p) idx false)
     else st !! key c p) ∧
  st' !! key c (mask_name p) =
    Some (tensor_index_fill (st !!! key c (mask_name p)) idx false).
Proof.
  intros Hnd Hf Hp Hn Hm Ht.
  assert (Hndp : NoDup (cparams c)).
  { unfold own_names in Hnd. rewrite fmap_app in Hnd.
    apply NoDup_app in Hnd as (Hnd & _ & _).
    by apply NoDup_fmap_1 in Hnd. }
  assert (Hframe : ∀ l (s s' : gmap string tensor),
             foldM (prune_param pt n c) s l = Some s' →
             l ⊆ cparams c → p ∉ l →
             s' !! key c p = s !! key c p ∧
             s' !! key c (mask_name p) = s !! key c (mask_name p)).
  { intros l s s' H Hl Hpl.
    apply (foldM_inv _ (λ s', s' !! key c p = s !! key c p ∧
              s' !! key c (mask_name p) = s !! key c (mask_name p)) _ _ _ H);
      [done|].
    intros s1 p' s2 Hp' [IH1 IH2] H2. rewrite <- IH1, <- IH2.
    assert (p' ≠ p) by (intros ->; done).
    split; (eapply prune_param_frame; [done|..]).
    - intros E. by apply key_inj in E.
    - intros Hm' E. by apply (param_buffer_ne c p (mask_name p')).
    - intros E. symmetry in E. apply (param_buffer_ne c p' (mask_name p)); auto.
    - intros _ E. apply key_inj, mask_name_inj in E. done. }
  apply list_elem_of_split in Hp as (pre & post & E).
  rewrite E in Hf, Hndp, Hframe.
  apply NoDup_app in Hndp as (_ & Hpre & Hpost).
  apply NoDup_cons in Hpost as [Hpost _].
  rewrite foldM_app in Hf.
  destruct (foldM _ _ pre) as [s1|] eqn:H1; simpl in Hf; [|done].
  destruct (prune_param pt n c s1 p) as [s2|] eqn:H2; simpl in Hf; [|done].
  destruct (Hframe pre st s1 H1) as [A1 A2].
  { intros x Hx. apply elem_of_app. by left. }
  { intros Hx. apply (Hpre p Hx). by left. }
  destruct (Hframe post s2 st' Hf) as [B1 B2].
  { intros x Hx. apply elem_of_app. right. by right. }
  { done. }
  destruct (prune_param_content _ _ _ _ _ _ H2 Hn) as (idx' & Ht' & C1 & C2).
  rewrite (lookup_total_eq _ _ _ A1) in Ht', C1.
  rewrite (lookup_total_eq _ _ _ A2) in C2.
  rewrite Ht in Ht'. injection Ht' as <-.
  rewrite B1, B2, C1, (C2 Hm). by rewrite A1.
Qed.

(** ** [layer_prune] *)

(** C9. When the [n_prune] that [layer_prune] computes for a layer is
    negative or at least [n_total], every parameter and buffer of that
    layer is the same tensor after the call as before. *)
Theorem layer_prune_skips_layer sp dist pt net net' weights c n_prune :
  NoDup (qualified_names net) →
  layer_prune sp dist pt net = Some net' →
  weights_by_layer sp dist net = Some weights →
  c ∈ children net →
  n_prune_of weights (state net) c = Some n_prune →
  (n_prune < 0 ∨ n_prune >= n_total (state net) c)%Z →
  ∀ k, k ∈ own_names c → state net' !! k = state net !! k.
Proof.
  intros Hnd Hp Hw Hc Hn Hskip k Hk.
  destruct (layer_prune_at_child _ _ _ _ _ _ _ Hnd Hp Hw Hc)
    as (st1 & st2 & H1 & H2 & H3).
  rewrite (H3 k Hk), <- (H1 k Hk).
  unfold prune_child in H2.
  rewrite (n_prune_of_ext _ _ _ _ H1), Hn in H2. simpl in H2.
  rewrite (n_total_ext _ _ _ H1) in H2.
  rewrite decide_True in H2 by tauto. by injection H2 as <-.
Qed.

Lemma layer_prune_skips_layer_witness :
  ∃ net', layer_prune (q 1 5) "uniform" "hard" conv_fc = Some net' ∧
    state net' !! "fc.weight" = state conv_fc !! "fc.weight" ∧
    state net' !! "fc.weight_mask" = state conv_fc !! "fc.weight_mask".
Proof.
  eexists. split; [vm_compute; reflexivity|].
  split.
  - eapply (layer_prune_skips_layer (q 1 5) "uniform" "hard" conv_fc _ _ fc (-2)).
    + apply (bool_decide_unpack _). vm_compute. exact I.
    + vm_compute. reflexivity.
    + vm_compute. reflexivity.
    + apply (bool_decide_unpack _). vm_compute. exact I.
    + vm_compute. reflexivity.
    + left. lia.
    + apply (bool_decide_unpack _). vm_compute. exact I.
  - eapply (layer_prune_skips_layer (q 1 5) "uniform" "hard" conv_fc _ _ fc (-2)).
    + apply (bool_decide_unpack _). vm_compute. exact I.
    + vm_compute. reflexivity.
    + vm_compute. reflexivity.
    + apply (bool_decide_unpack _). vm_compute. exact I.
    + vm_compute. reflexivity.
    + left. lia.
    + apply (bool_decide_unpack _). vm_compute. exact I.
Defined.

(** C6. In a layer with a valid [n_prune], let [idx] be the [n_prune]
    positions of smallest magnitude that [topk] selects in a masked
    parameter.  After [layer_prune] the mask bit of each selected position
    is 0; with pruning type 'hard' the weight there is exactly 0, with
    'soft' the weight there is the one before the call. *)
Theorem layer_prune_selected sp dist pt net net' weights c n_prune pname idx :
  NoDup (qualified_names net) →
  layer_prune sp dist pt net = Some net' →
  weights_by_layer sp dist net = Some weights →
  c ∈ children net →
  n_prune_of weights (state net) c = Some n_prune →
  (0 <= n_prune < n_total (state net) c)%Z →
  pname ∈ cparams c → needs_mask pname = true → mask_name pname ∈ cbuffers c →
  numel (state net !!! key c (mask_name pname)) = numel (state net !!! key c pname) →
  topk (abs <$> floats (state net !!! key c pname)) (Z.to_nat n_prune) false
    = Some idx →
  length idx = Z.to_nat n_prune ∧
  ∀ i, i ∈ idx →
    bools (state net' !!! key c (mask_name pname)) !! i = Some false ∧
    (pt = "hard" → floats (state net' !!! key c pname) !! i = Some zero) ∧
    (pt = "soft" → floats (state net' !!! key c pname) !! i
                   = floats (state net !!! key c pname) !! i).
Proof.
  intros Hnd Hp Hw Hc Hn Hvalid Hpn Hneeds Hmask Hshape Htopk.
  destruct (topk_spec _ _ _ _ Htopk) as (Hlen & _ & Hbound & _).
  split; [done|]. intros i Hi.
  destruct (layer_prune_at_child _ _ _ _ _ _ _ Hnd Hp Hw Hc)
    as (st1 & st2 & H1 & H2 & H3).
  unfold prune_child in H2.
  rewrite (n_prune_of_ext _ _ _ _ H1), Hn in H2. simpl in H2.
  rewrite (n_total_ext _ _ _ H1) in H2.
  rewrite decide_False in H2 by lia.
  pose proof (elem_of_own_names_param c pname Hpn) as Kp.
  pose proof (elem_of_own_names_buffer c (mask_name pname) Hmask) as Km.
  rewrite <- (lookup_total_eq _ _ _ (H1 _ Kp)) in Htopk.
  destruct (prune_params_content _ _ _ _ _ _ _
              (own_names_NoDup _ _ Hnd Hc) H2 Hpn Hneeds Hmask Htopk)
    as [Cw Cm].
  rewrite (lookup_total_eq _ _ _ (H1 _ Kp)), (H1 _ Kp), <- (H3 _ Kp) in Cw.
  rewrite (lookup_total_eq _ _ _ (H1 _ Km)), <- (H3 _ Km) in Cm.
  specialize (Hbound i Hi). rewrite length_fmap, length_floats in Hbound.
  split; [|split].
  - rewrite (lookup_total_correct _ _ _ Cm), bools_tensor_index_fill.
    rewrite decide_True; [done|]. split; [done|]. by rewrite Hshape.
  - intros ->. rewrite decide_True in Cw by done.
    rewrite (lookup_total_correct _ _ _ Cw), floats_tensor_index_fill.
    by rewrite decide_True.
  - intros ->. rewrite decide_False in Cw by done.
    by rewrite (lookup_total_eq _ _ _ Cw).
Qed.

Lemma layer_prune_selected_witness :
  ∃ net' net'',
    layer_prune (q 1 5) "uniform" "hard" conv_fc = Some net' ∧
    layer_prune (q 1 5) "uniform" "soft" conv_fc = Some net'' ∧
    bools (state net' !!! "conv.weight_mask") !! 4%nat = Some false ∧
    floats (state net' !!! "conv.weight") !! 4%nat = Some zero ∧
    bools (state net'' !!! "conv.weight_mask") !! 4%nat = Some false ∧
    floats (state net'' !!! "conv.weight") !! 4%nat = Some (q (-1) 4).
Proof.
  do 2 eexists. split; [vm_compute; reflexivity|].
  split; [vm_compute; reflexivity|].
  assert (Hnd : NoDup (qualified_names conv_fc))
    by (apply (bool_decide_unpack _); vm_compute; exact I).
  assert (Hc : conv ∈ children conv_fc)
    by (apply (bool_decide_unpack _); vm_compute; exact I).
  assert (Hw : "weight" ∈ cparams conv)
    by (apply (bool_decide_unpack _); vm_compute; exact I).
  assert (Hm : mask_name "weight" ∈ cbuffers conv)
    by (apply (bool_decide_unpack _); vm_compute; exact I).
  assert (H4 : 4%nat ∈ [4%nat]) by (by left).
  pose proof (λ pt net' H,
    proj2 (layer_prune_selected (q 1 5) "uniform" pt conv_fc net' _ conv 1
             "weight" [4%nat] Hnd H ltac:(vm_compute; reflexivity) Hc
             ltac:(vm_compute; reflexivity) ltac:(vm_compute; split; congruence)
             Hw eq_refl Hm eq_refl
             ltac:(vm_compute; reflexivity)) 4%nat H4) as T.
  destruct (T "hard" _ ltac:(vm_compute; reflexivity)) as (A1 & A2 & _).
  destruct (T "soft" _ ltac:(vm_compute; reflexivity)) as (B1 & _ & B2).
  split; [exact A1|]. split; [exact (A2 eq_refl)|].
  split; [exact B1|].
  etrans; [exact (B2 eq_refl)|]. vm_compute. reflexivity.
Defined.

(** ** Tensor writes through a boolean mask *)

Lemma masked_assign_self {A} (l : list A) m : masked_assign l m l = l.
Proof.
  apply list_eq. intros i. unfold masked_assign. rewrite list_lookup_imap.
  destruct (l !! i) eqn:E; simpl; [|done]. by destruct (m !! i) as [[]|].
Qed.

Lemma tensor_masked_assign_self x m : tensor_masked_assign x m x = x.
Proof. destruct x; simpl; by rewrite masked_assign_self. Qed.

Lemma copy_self x : copy_ x x = x.
Proof. by destruct x. Qed.

Lemma numel_tensor_masked_fill x m b : numel (tensor_masked_fill x m b) = numel x.
Proof. destruct x; simpl; unfold masked_fill; by rewrite length_imap. Qed.

Lemma floats_tensor_masked_fill x m (i : nat) :
  floats (tensor_masked_fill x m false) !! i =
    (λ v, match m !! i with Some true => zero | _ => v end) <$> floats x !! i.
Proof.
  destruct x as [l|l]; simpl.
  - apply masked_fill_lookup.
  - rewrite !list_lookup_fmap, masked_fill_lookup.
    destruct (l !! i); simpl; [|done]. by destruct (m !! i) as [[]|].
Qed.

Lemma same_dtype_refl a : same_dtype a a.
Proof. by destruct a. Qed.

Lemma same_dtype_trans a b c : same_dtype a b → same_dtype b c → same_dtype a c.
Proof. by destruct a, b, c. Qed.

Lemma same_dtype_copy dst src : same_dtype dst (copy_ dst src).
Proof. by destruct dst. Qed.

Lemma same_dtype_masked_fill x m b : same_dtype x (tensor_masked_fill x m b).
Proof. by destruct x. Qed.

Lemma to_bool_of_bool_list (l : list bool) : to_bool <$> (of_bool <$> l) = l.
Proof.
  rewrite <- list_fmap_compose. rewrite <- (list_fmap_id l) at 2.
  apply list_fmap_ext. intros _ b _. apply to_bool_of_bool.
Qed.

Lemma bools_copy dst src : bools (copy_ dst src) = bools src.
Proof.
  destruct dst; simpl; [|done]. destruct src; simpl; [done|].
  apply to_bool_of_bool_list.
Qed.

Lemma copy_same_dtype dst src :
  same_dtype dst src → copy_ dst src = src.
Proof. by destruct dst, src. Qed.

Lemma tensor_equal_copy old bs : tensor_equal (copy_ old (TBool bs)) (TBool bs) = true.
Proof.
  unfold tensor_equal. apply bool_decide_eq_true.
  destruct old; simpl; [done|done].
Qed.

Lemma endswith_unfold s suffix :
  endswith s suffix =
    if decide (s = suffix) then true
    else match s with
         | EmptyString => false
         | String _ s' => endswith s' suffix
         end.
Proof. by destruct s. Qed.

Lemma endswith_refl s : endswith s s = true.
Proof. rewrite endswith_unfold. by rewrite decide_True. Qed.

Lemma endswith_app s suffix : endswith (s +:+ suffix) suffix = true.
Proof.
  induction s as [|a s IH]; [apply endswith_refl|].
  rewrite append_cons, endswith_unfold. by destruct (decide _).
Qed.

Lemma endswith_mask_name name : endswith (mask_name name) "_mask" = true.
Proof. apply endswith_app. Qed.

(** ** [reset_weights] without a global state *)

Section reset_local.

Variable pt : string.
Variable L0 : gmap string tensor.

Lemma entry_ok_refl k o : (entry_ok pt L0) k o o.
Proof.
  destruct o as [t|]; simpl; [|done].
  destruct (endswith k "_mask"); [by split; [apply same_dtype_refl|]|].
  split; [apply same_dtype_refl|]. intros i. by left.
Qed.

Lemma reset_inv_init : (reset_inv pt L0) (ResetState L0 ∅ false).
Proof.
  split; [done|]. intros k. simpl. split; [apply entry_ok_refl|by left].
Qed.

Lemma reset_body_inv s name s' :
  (reset_inv pt L0) s →
  reset_body None false false pt s name = Some s' →
  (reset_inv pt L0) s'.
Proof.
  intros [Hc Hk]. unfold reset_body. simpl.
  destruct (endswith name "_mask") eqn:En; [by intros [= <-]|].
  destruct (local_state s !! name) as [x|] eqn:Ex; simpl; [|done].
  destruct (needs_mask name && _) eqn:Eb.
  - destruct (local_state s !! mask_name name) as [om|] eqn:Em; simpl; [|done].
    intros [= <-]. split; simpl.
    + by rewrite lookup_total_insert_eq, tensor_equal_copy.
    + rewrite tensor_masked_assign_self.
      assert (Hne : name ≠ mask_name name) by (intros E; by apply (mask_name_ne name)).
      destruct (Hk name) as [Hn _]. destruct (Hk (mask_name name)) as [Hm _].
      rewrite Ex in Hn. rewrite Em in Hm. unfold entry_ok in Hn, Hm.
      destruct (L0 !! name) as [t0|] eqn:E0; [|done].
      destruct (L0 !! mask_name name) as [tm|] eqn:E0m; [|done].
      rewrite En in Hn. rewrite endswith_mask_name in Hm.
      destruct Hm as [Hm1 Hm2].
      intros k. destruct (decide (k = mask_name name)) as [->|Hk1].
      { rewrite !lookup_insert_eq, E0m. split; [|by right].
        simpl. rewrite endswith_mask_name. split.
        - eapply same_dtype_trans; [done|apply same_dtype_copy].
        - by rewrite bools_copy. }
      rewrite !(lookup_insert_ne _ (mask_name name)) by done.
      destruct (decide (k = name)) as [->|Hk2].
      { rewrite !lookup_insert_eq, E0. split; [|by right].
        simpl. rewrite En. destruct Hn as [Hd Hp].
        destruct (decide (pt = "hard")) as [Hh|Hh]; [|by split].
        split; [eapply same_dtype_trans; [done|apply same_dtype_masked_fill]|].
        intros i. rewrite floats_tensor_masked_fill, list_lookup_fmap.
        specialize (Hp i).
        rewrite (lookup_total_correct _ _ _ E0m), <- Hm2 in Hp |- *.
        destruct Hp as [Hi|(_ & Hi1 & Hi2)].
        - rewrite Hi. destruct (floats t0 !! i) as [v|] eqn:Ev; simpl; [|by left].
          destruct (bools om !! i) as [[]|] eqn:Eo; simpl; [by left| |by left].
          right. done.
        - rewrite Hi2. simpl. right. split; [done|]. split; [done|].
          by destruct (negb <$> bools om !! i) as [[]|]. }
      rewrite !lookup_insert_ne by done. apply Hk.
  - intros [= <-]. rewrite copy_self. split; [done|]. simpl.
    rewrite (insert_id (local_state s)) by done.
    intros k. split; [apply Hk|].
    destruct (decide (k = name)) as [->|].
    + rewrite lookup_insert_eq. by right.
    + rewrite lookup_insert_ne by done. apply Hk.
Qed.

Lemma reset_fold_inv l s :
  foldM (reset_body None false false pt) (ResetState L0 ∅ false) l = Some s →
  (reset_inv pt L0) s.
Proof.
  intros H. apply (foldM_inv _ (reset_inv pt L0) _ _ _ H); [apply reset_inv_init|].
  intros s1 name s2 _ H1 H2. by eapply reset_body_inv.
Qed.

End reset_local.

Lemma load_state_dict_lookup sd net net' k :
  load_state_dict sd net = Some net' →
  dom sd = dom (state net) ∧
  state net' !! k = (λ old, copy_ old (sd !!! k)) <$> state net !! k.
Proof.
  unfold load_state_dict. destruct (decide _) as [Hd|]; [|done].
  intros [= <-]. split; [done|]. simpl. rewrite map_lookup_imap.
  by destruct (state net !! k).
Qed.

(** After [reset_weights()] every entry of the state dict is related to
    the one before as the loop invariant says, and no mask change is
    reported. *)
Lemma reset_weights_local_entries pt net net' changed :
  reset_weights None false false pt net = Some (net', changed) →
  changed = false ∧
  ∀ k, entry_ok pt (state net) k (state net !! k) (state net' !! k).
Proof.
  unfold reset_weights. simpl.
  destruct (sparsity_of _) as [cs|]; simpl; [|done].
  destruct (foldM _ _ _) as [s|] eqn:Hf; simpl; [|done].
  destruct (load_state_dict _ _) as [n1|] eqn:Hl; simpl; [|done].
  intros [= <- <-].
  destruct (reset_fold_inv _ _ _ _ Hf) as [Hc Hk]. split; [done|].
  intros k. destruct (load_state_dict_lookup _ _ _ k Hl) as [Hd Hs].
  simpl in Hd, Hs. rewrite Hs.
  destruct (Hk k) as [He Hn].
  destruct (state net !! k) as [old|] eqn:Eo; simpl; [|done].
  assert (is_Some (new_state s !! k)) as [v Hv].
  { apply elem_of_dom. rewrite Hd. apply elem_of_dom. eauto. }
  rewrite Hv in Hn. destruct Hn as [|Hn]; [done|].
  rewrite <- Hn in He. rewrite (lookup_total_correct _ _ _ Hv).
  assert (same_dtype old v) as Hsd.
  { simpl in He. destruct (endswith k "_mask"); by destruct He. }
  by rewrite (copy_same_dtype _ _ Hsd).
Qed.

(** C10. The per-step call [reset_weights()] (no global state, both mask
    flags off) reports [mask_changed = False], leaves the bits of every
    mask as they were (a boolean mask is the same tensor afterwards), and
    changes a weight only at a position its mask excludes, where 'hard'
    pruning writes 0. *)
Theorem reset_weights_local_keeps_masks pt net net' changed :
  reset_weights None false false pt net = Some (net', changed) →
  changed = false ∧
  (∀ k, endswith k "_mask" = true →
     bools (state net' !!! k) = bools (state net !!! k) ∧
     (∀ l, state net !! k = Some (TBool l) → state net' !! k = Some (TBool l))) ∧
  (∀ k (i : nat), endswith k "_mask" = false →
     floats (state net' !!! k) !! i = floats (state net !!! k) !! i ∨
     (pt = "hard" ∧ bools (state net !!! mask_name k) !! i = Some false ∧
      floats (state net' !!! k) !! i = Some zero)).
Proof.
  intros H. destruct (reset_weights_local_entries _ _ _ _ H) as [Hc Hk].
  split; [done|]. split.
  - intros k Ek. specialize (Hk k). unfold entry_ok in Hk.
    unfold lookup_total, map_lookup_total.
    destruct (state net !! k) as [t|], (state net' !! k) as [t'|]; try done.
    rewrite Ek in Hk. destruct Hk as [Hd Hb]. split; [done|].
    intros l [= ->]. destruct t'; [done|]. simpl in Hb. by rewrite Hb.
  - intros k i Ek. specialize (Hk k). unfold entry_ok in Hk.
    unfold lookup_total at 1 2 4, map_lookup_total.
    destruct (state net !! k) as [t|], (state net' !! k) as [t'|]; try done;
      [|by left].
    rewrite Ek in Hk. destruct Hk as [_ Hp]. apply Hp.
Qed.

Lemma reset_weights_local_keeps_masks_witness :
  ∃ net', reset_weights None false false "hard" masked_net = Some (net', false) ∧
    state net' !! "fc.weight_mask" = Some (TBool [true; false; true; false]) ∧
    floats (state net' !!! "fc.weight") !! 1%nat = Some zero ∧
    floats (state net' !!! "fc.weight") !! 2%nat = Some (q 3 1).
Proof.
  eexists. split; [vm_compute; reflexivity|].
  destruct (reset_weights_local_keeps_masks "hard" masked_net _ false
              ltac:(vm_compute; reflexivity)) as (_ & Hm & Hw).
  split; [|split].
  - apply (Hm "fc.weight_mask" eq_refl). vm_compute. reflexivity.
  - vm_compute. reflexivity.
  - destruct (Hw "fc.weight" 2%nat eq_refl) as [E|(_ & E & _)].
    + etrans; [exact E|]. vm_compute. reflexivity.
    + vm_compute in E. discriminate E.
Defined.

(** ** Loops that touch one key per iteration *)

Section fold_local.

Context {A S V : Type} (view : S → string → V) (key : A → string).
Context (f : S → A → option S).

Lemma local_on_app l1 l2 : local_on view key f (l1 ++ l2)%list → local_on view key f l1 ∧ local_on view key f l2.
Proof.
  intros H. split; intros s a s' k Ha; apply H; apply elem_of_app; auto.
Qed.

Lemma foldM_local_other l s s' k :
  local_on view key f l → foldM f s l = Some s' → k ∉ key <$> l → view s' k = view s k.
Proof.
  intros Hl Hf Hk.
  apply (foldM_inv _ (λ s', view s' k = view s k) _ _ _ Hf); [done|].
  intros s1 a s2 Ha H1 H2. rewrite <- H1. eapply Hl; [done..|].
  intros ->. apply Hk. by apply list_elem_of_fmap_2.
Qed.

Lemma foldM_local_at l s s' a :
  local_on view key f l → NoDup (key <$> l) → a ∈ l → foldM f s l = Some s' →
  ∃ s1 s2, view s1 (key a) = view s (key a) ∧ f s1 a = Some s2 ∧
           view s' (key a) = view s2 (key a).
Proof.
  intros Hl Hnd Ha Hf.
  apply list_elem_of_split in Ha as (pre & post & ->).
  rewrite fmap_app, fmap_cons in Hnd.
  apply NoDup_app in Hnd as (_ & Hpre & Hpost).
  apply NoDup_cons in Hpost as [Hpost _].
  apply local_on_app in Hl as [Hl1 Hl2].
  rewrite foldM_app in Hf.
  destruct (foldM f s pre) as [s1|] eqn:H1; simpl in Hf; [|done].
  destruct (f s1 a) as [s2|] eqn:H2; simpl in Hf; [|done].
  exists s1, s2. split; [|split; [done|]].
  - apply (foldM_local_other pre s s1 (key a) Hl1 H1).
    intros Hin. apply (Hpre _ Hin). by left.
  - apply (foldM_local_other post s2 s' (key a)); [|done..].
    intros ? b ? ? Hb. apply Hl2. by right.
Qed.

End fold_local.

Lemma foldM_Some_foldl {A B} (f : B → A → B) b l :
  foldM (λ b a, Some (f b a)) b l = Some (foldl f b l).
Proof. revert b. induction l as [|a l IH]; intros b; simpl; [done|apply IH]. Qed.

(** ** The reduction *)

Lemma reduce_param_local args total l :
  local_on entry id (reduce_param args total) l.
Proof.
  intros acc name acc' k _ H Hk. unfold id in Hk. unfold reduce_param in H.
  destruct (aggregated_params acc !! name) as [ap|]; simpl in H; [|done].
  destruct (aggregated_masks acc !! name) as [am|].
  - destruct (aggregated_params_for_mask acc !! name) as [apm|]; simpl in H; [|done].
    injection H as <-. unfold entry. simpl. by rewrite !lookup_insert_ne.
  - injection H as <-. unfold entry. simpl. by rewrite !lookup_insert_ne.
Qed.

Lemma reduce_at args total acc acc' name ap :
  reduce args total acc = Some acc' →
  aggregated_params acc !! name = Some ap →
  ∃ s1 s2, entry s1 name = entry acc name ∧
           reduce_param args total s1 name = Some s2 ∧
           entry acc' name = entry s2 name.
Proof.
  intros Hr Hap. unfold reduce in Hr.
  assert (Hnd : NoDup (id <$> (map_to_list (aggregated_params acc)).*1)).
  { rewrite list_fmap_id. apply NoDup_fst_map_to_list. }
  assert (Hin : name ∈ (map_to_list (aggregated_params acc)).*1).
  { apply list_elem_of_fmap. exists (name, ap). split; [done|].
    by apply elem_of_map_to_list. }
  exact (foldM_local_at entry id _ _ _ _ name
           (reduce_param_local args total _) Hnd Hin Hr).
Qed.

Lemma reduce_masked args total acc acc' name ap am :
  reduce args total acc = Some acc' →
  aggregated_params acc !! name = Some ap →
  aggregated_masks acc !! name = Some am →
  aggregated_params acc' !! name = Some (TFloat (reduced_param args ap am)) ∧
  aggregated_params_for_mask acc' !! name = Some (TFloat (reduced_param args ap am)) ∧
  aggregated_masks acc' !! name = Some (TFloat (reduced_mask args am)).
Proof.
  intros Hr Hap Ham.
  destruct (reduce_at _ _ _ _ _ _ Hr Hap) as (s1 & s2 & H1 & H2 & H3).
  unfold entry in H1, H3. rewrite Hap, Ham in H1.
  injection H1 as E1 E2 E3. injection H3 as -> -> ->.
  unfold reduce_param in H2. rewrite E1, E3 in H2. simpl in H2.
  destruct (aggregated_params_for_mask s1 !! name) as [apm|]; simpl in H2; [|done].
  injection H2 as <-. simpl. rewrite !lookup_insert_eq.
  unfold reduced_param, reduced_mask. split; [done|]. split; [|done].
  do 2 f_equal. rewrite <- list_fmap_compose.
  apply list_fmap_ext. intros _ x _. by destruct x.
Qed.

Lemma reduce_masks_other args total acc acc' name :
  reduce args total acc = Some acc' →
  aggregated_params acc !! name = None →
  aggregated_masks acc' !! name = aggregated_masks acc !! name.
Proof.
  intros Hr Hap. unfold reduce in Hr.
  assert (entry acc' name = entry acc name) as E.
  { eapply (foldM_local_other entry id); [apply reduce_param_local|done|].
    rewrite list_fmap_id. intros Hin.
    apply list_elem_of_fmap in Hin as ([k v] & -> & Hin).
    apply elem_of_map_to_list in Hin. simpl in Hap. congruence. }
  by injection E.
Qed.

Lemma reduce_masks_dom args total acc acc' name :
  reduce args total acc = Some acc' →
  is_Some (aggregated_masks acc' !! name) ↔ is_Some (aggregated_masks acc !! name).
Proof.
  intros Hr. destruct (aggregated_params acc !! name) as [ap|] eqn:Hap.
  - destruct (aggregated_masks acc !! name) as [am|] eqn:Ham.
    + destruct (reduce_masked _ _ _ _ _ _ _ Hr Hap Ham) as (_ & _ & ->).
      split; eauto.
    + destruct (reduce_at _ _ _ _ _ _ Hr Hap) as (s1 & s2 & H1 & H2 & H3).
      unfold entry in H1, H3. rewrite Hap, Ham in H1.
      injection H1 as E1 E2 E3. injection H3 as _ _ ->.
      unfold reduce_param in H2. rewrite E1, E3 in H2. simpl in H2.
      injection H2 as <-. simpl. by rewrite E3.
  - by rewrite (reduce_masks_other _ _ _ _ _ Hr Hap).
Qed.

(** After the reduction the entry of a masked parameter in
    [aggregated_params_for_mask] is the one in [aggregated_params]: what
    the "remember old" branch added has been overwritten. *)
Lemma reduce_for_mask_is_params args total acc acc' name :
  reduce args total acc = Some acc' →
  is_Some (aggregated_params acc !! name) →
  is_Some (aggregated_masks acc !! name) →
  aggregated_params_for_mask acc' !! name = aggregated_params acc' !! name.
Proof.
  intros Hr [ap Hap] [am Ham].
  destruct (reduce_masked _ _ _ _ _ _ _ Hr Hap Ham) as (-> & -> & _). done.
Qed.

(** ** Masks as entries of the accumulators *)

Lemma endswith_mask_name_ne name k :
  endswith k "_mask" = false → k ≠ mask_name name.
Proof. intros H ->. by rewrite endswith_mask_name in H. Qed.

Lemma masks_as_params_masks acc :
  aggregated_masks (masks_as_params acc) = aggregated_masks acc.
Proof.
  unfold masks_as_params.
  apply (foldl_inv _ (λ a, aggregated_masks a = aggregated_masks acc)); [done|].
  by intros a [name mask] _ IH.
Qed.

Lemma masks_as_params_other acc k :
  endswith k "_mask" = false →
  aggregated_params (masks_as_params acc) !! k = aggregated_params acc !! k ∧
  aggregated_params_for_mask (masks_as_params acc) !! k
    = aggregated_params_for_mask acc !! k.
Proof.
  intros Hk. unfold masks_as_params.
  apply (foldl_inv _ (λ a,
           aggregated_params a !! k = aggregated_params acc !! k ∧
           aggregated_params_for_mask a !! k = aggregated_params_for_mask acc !! k));
    [done|].
  intros a [name mask] _ [IH1 IH2]. simpl.
  rewrite !lookup_insert_ne by (symmetry; by apply endswith_mask_name_ne).
  done.
Qed.

Lemma masks_as_params_mask acc name mask :
  aggregated_masks acc !! name = Some mask →
  aggregated_params (masks_as_params acc) !! mask_name name = Some mask ∧
  aggregated_params_for_mask (masks_as_params acc) !! mask_name name = Some mask.
Proof.
  intros Hm. unfold masks_as_params.
  pose (view := λ (a : accumulators) (k : string),
          (aggregated_params a !! mask_name k,
           aggregated_params_for_mask a !! mask_name k)).
  pose (f := λ (a : accumulators) (it : string * tensor),
          Some (Acc (<[mask_name it.1 := it.2]> (aggregated_params a))
                    (<[mask_name it.1 := it.2]> (aggregated_params_for_mask a))
                    (aggregated_masks a))).
  assert (Hloc : local_on view fst f (map_to_list (aggregated_masks acc))).
  { intros s [n m] s' k _ [= <-] Hk. unfold view. simpl in *.
    rewrite !lookup_insert_ne; [done|..]; intros E; by apply mask_name_inj in E. }
  assert (Hf : foldM f acc (map_to_list (aggregated_masks acc)) =
               Some (foldl (λ acc '(name, mask),
                 Acc (<[mask_name name := mask]> (aggregated_params acc))
                     (<[mask_name name := mask]> (aggregated_params_for_mask acc))
                     (aggregated_masks acc)) acc (map_to_list (aggregated_masks acc)))).
  { rewrite <- foldM_Some_foldl. unfold f.
    generalize (map_to_list (aggregated_masks acc)). intros l. revert acc Hm Hloc.
    induction l as [|[n m] l IH]; intros acc Hm Hloc; [done|]. simpl. apply IH.
    - done.
    - done. }
  destruct (foldM_local_at view fst f _ _ _ (name, mask) Hloc
              (NoDup_fst_map_to_list _)
              (proj2 (elem_of_map_to_list _ _ _) Hm) Hf)
    as (s1 & s2 & _ & H2 & H3).
  unfold f in H2. injection H2 as <-. unfold view in H3. simpl in H3.
  rewrite !lookup_insert_eq in H3. by injection H3 as -> ->.
Qed.

(** ** The final mask enforcement *)

Lemma apply_new_mask_at gp acc acc' name :
  masks_wf acc →
  apply_new_mask gp acc = Some acc' →
  is_Some (aggregated_masks acc !! name) →
  ∃ new_mask w,
    gp !! mask_name name = Some new_mask ∧
    aggregated_params acc !! name = Some w ∧
    aggregated_params acc' !! mask_name name = Some new_mask ∧
    aggregated_params acc' !! name =
      Some (tensor_masked_fill w (negb <$> bools new_mask) false).
Proof.
  intros Hwf Ha [m Hm]. unfold apply_new_mask in Ha.
  pose (view := λ (a : accumulators) (k : string),
          if endswith k "_mask" then None
          else Some (aggregated_params a !! k, aggregated_params a !! mask_name k)).
  assert (Hloc : local_on view id (new_mask_step gp)
                   (map_to_list (aggregated_masks acc)).*1).
  { intros s n s' k Hn Hs Hk. unfold id in Hk. unfold view.
    destruct (endswith k "_mask") eqn:Ek; [done|].
    assert (endswith n "_mask" = false) as En.
    { apply Hwf. apply list_elem_of_fmap in Hn as ([n' t] & -> & Hn).
      apply elem_of_map_to_list in Hn. eauto. }
    unfold new_mask_step in Hs.
    destruct (gp !! mask_name n) as [nm|]; simpl in Hs; [|done].
    destruct (_ !! n) as [w|]; simpl in Hs; [|done].
    injection Hs as <-. simpl. f_equal.
    rewrite !(lookup_insert_ne _ n) by (done || by apply endswith_mask_name_ne).
    rewrite !lookup_insert_ne; [done|..].
    - intros E. by apply mask_name_inj in E.
    - symmetry. by apply endswith_mask_name_ne. }
  assert (Hnd : NoDup (id <$> (map_to_list (aggregated_masks acc)).*1)).
  { rewrite list_fmap_id. apply NoDup_fst_map_to_list. }
  assert (Hin : name ∈ (map_to_list (aggregated_masks acc)).*1).
  { apply list_elem_of_fmap. exists (name, m). split; [done|].
    by apply elem_of_map_to_list. }
  destruct (foldM_local_at view id _ _ _ _ name Hloc Hnd Hin Ha)
    as (s1 & s2 & H1 & H2 & H3).
  unfold view, id in H1, H3. rewrite (Hwf name) in H1, H3 by eauto.
  injection H1 as E1 E2. injection H3 as -> ->.
  unfold new_mask_step in H2.
  destruct (gp !! mask_name name) as [nm|]; simpl in H2; [|done].
  rewrite lookup_insert_ne in H2
    by (symmetry; apply endswith_mask_name_ne; apply Hwf; eauto).
  rewrite E1 in H2.
  destruct (aggregated_params acc !! name) as [w|]; simpl in H2; [|done].
  injection H2 as <-. simpl. exists nm, w. split; [done|]. split; [done|].
  rewrite lookup_insert_eq.
  rewrite lookup_insert_ne
    by (apply endswith_mask_name_ne; apply Hwf; eauto).
  by rewrite lookup_insert_eq.
Qed.



(** ** The end of a round *)

Lemma finish_round_stages args sp total acc gm gm' :
  finish_round args sp total acc gm = Some gm' →
  ∃ acc1 gm0 gm1 acc3,
    reduce args total acc = Some acc1 ∧
    load_state_dict (aggregated_params_for_mask (masks_as_params acc1)) gm = Some gm0 ∧
    stay_cleared (state gm0) (state gm1) ∧
    apply_new_mask (state gm1) (masks_as_params acc1) = Some acc3 ∧
    load_state_dict (aggregated_params acc3) gm1 = Some gm'.
Proof.
  unfold finish_round. intros H.
  destruct (reduce args total acc) as [acc1|]; simpl in H; [|done].
  destruct (load_state_dict _ gm) as [gm0|] eqn:Hl; simpl in H; [|done].
  destruct (sparsity gm0) as [s|]; simpl in H; [|done].
  destruct (if ltb s sp then _ else _) as [gm1|] eqn:Hp; simpl in H; [|done].
  destruct (apply_new_mask _ _) as [acc3|] eqn:Ha; simpl in H; [|done].
  exists acc1, gm0, gm1, acc3. repeat split; try done.
  destruct (ltb s sp).
  - by eapply layer_prune_stay_cleared.
  - injection Hp as <-. apply stay_cleared_refl.
Qed.

Lemma masks_wf_reduce args total acc acc1 :
  reduce args total acc = Some acc1 → masks_wf acc →
  masks_wf (masks_as_params acc1).
Proof.
  intros Hr Hwf k Hk. rewrite masks_as_params_masks in Hk.
  apply Hwf. by apply (reduce_masks_dom _ _ _ _ k Hr).
Qed.

(** The published mask of a mask-bearing parameter is the mask the global
    model has after the re-prune. *)
Lemma finish_round_mask args sp total acc gm gm' name :
  finish_round args sp total acc gm = Some gm' →
  masks_wf acc →
  is_Some (aggregated_masks acc !! name) →
  ∃ acc1 gm0 gm1 new_mask w old,
    reduce args total acc = Some acc1 ∧
    load_state_dict (aggregated_params_for_mask (masks_as_params acc1)) gm = Some gm0 ∧
    stay_cleared (state gm0) (state gm1) ∧
    state gm1 !! mask_name name = Some new_mask ∧
    state gm' !! mask_name name = Some new_mask ∧
    state gm' !! name =
      Some (copy_ old (tensor_masked_fill w (negb <$> bools new_mask) false)).
Proof.
  intros Hf Hwf Hm.
  destruct (finish_round_stages _ _ _ _ _ _ Hf)
    as (acc1 & gm0 & gm1 & acc3 & Hr & Hl0 & Hsc & Ha & Hl).
  assert (Hm2 : is_Some (aggregated_masks (masks_as_params acc1) !! name)).
  { rewrite masks_as_params_masks. by apply (reduce_masks_dom _ _ _ _ name Hr). }
  destruct (apply_new_mask_at _ _ _ name (masks_wf_reduce _ _ _ _ Hr Hwf) Ha Hm2)
    as (nm & w & Hg & Hw & A1 & A2).
  destruct (load_state_dict_lookup _ _ _ (mask_name name) Hl) as [Hd L1].
  destruct (load_state_dict_lookup _ _ _ name Hl) as [_ L2].
  rewrite Hg in L1. simpl in L1.
  rewrite (lookup_total_correct _ _ _ A1), copy_self in L1.
  assert (is_Some (state gm1 !! name)) as [old Ho].
  { apply elem_of_dom. rewrite <- Hd. apply elem_of_dom. eauto. }
  rewrite Ho in L2. simpl in L2. rewrite (lookup_total_correct _ _ _ A2) in L2.
  exists acc1, gm0, gm1, nm, w, old. repeat split; done.
Qed.


Lemma threshold_at_or_below thr v :
  gtb v thr = false → nan_to_num (div (threshold thr zero v) (threshold thr zero v)) = zero.
Proof. intros H. unfold threshold. rewrite H. by vm_compute. Qed.

Lemma reduced_mask_lookup args am (i : nat) :
  reduced_mask args am !! i =
    (λ v, let t := threshold (of_Z (min_votes args)) zero v in nan_to_num (div t t))
      <$> floats am !! i.
Proof.
  unfold reduced_mask, tdiv. rewrite list_lookup_fmap, lookup_zip_with.
  rewrite !list_lookup_fmap. by destruct (floats am !! i).
Qed.

(** A position whose accumulated votes are at or below [min_votes] is 0
    in the aggregated mask and in the published mask. *)
Lemma finish_round_threshold args sp total acc gm gm' name ap am (i : nat) v :
  finish_round args sp total acc gm = Some gm' →
  masks_wf acc →
  aggregated_params acc !! name = Some ap →
  aggregated_masks acc !! name = Some am →
  floats am !! i = Some v →
  gtb v (of_Z (min_votes args)) = false →
  reduced_mask args am !! i = Some zero ∧
  bools (state gm' !!! mask_name name) !! i = Some false.
Proof.
  intros Hf Hwf Hap Ham Hv Hg.
  assert (Hz : reduced_mask args am !! i = Some zero).
  { rewrite reduced_mask_lookup, Hv. simpl. f_equal.
    by apply threshold_at_or_below. }
  split; [done|].
  destruct (finish_round_mask _ _ _ _ _ _ name Hf Hwf ltac:(eauto))
    as (acc1 & gm0 & gm1 & nm & w & old & Hr & Hl0 & Hsc & G1 & M & _).
  destruct (reduce_masked _ _ _ _ _ _ _ Hr Hap Ham) as (_ & _ & R).
  destruct (masks_as_params_mask _ _ _ R) as [_ R2].
  destruct (load_state_dict_lookup _ _ _ (mask_name name) Hl0) as [Hd L0].
  assert (is_Some (state gm !! mask_name name)) as [o Ho].
  { apply elem_of_dom. rewrite <- Hd. apply elem_of_dom. eauto. }
  rewrite Ho in L0. simpl in L0. rewrite (lookup_total_correct _ _ _ R2) in L0.
  rewrite (lookup_total_correct _ _ _ M), <- (lookup_total_correct _ _ _ G1).
  apply Hsc. rewrite (lookup_total_correct _ _ _ L0), bools_copy. simpl.
  rewrite list_lookup_fmap, Hz. by vm_compute.
Qed.

(** ** The accumulators during the client loop *)

Lemma list_to_map_snoc (l : list (string * tensor)) n t k :
  NoDup ((l ++ [(n, t)])%list).*1 →
  (list_to_map (l ++ [(n, t)])%list : gmap string tensor) !! k =
    if decide (k = n) then Some t else (list_to_map l : gmap string tensor) !! k.
Proof.
  intros Hnd. pose proof Hnd as Hnd'. rewrite fmap_app in Hnd'.
  apply NoDup_app in Hnd' as (Hl & Hdis & _).
  destruct (decide (k = n)) as [->|Hne].
  - apply elem_of_list_to_map_1; [done|]. apply elem_of_app. right. by left.
  - destruct ((list_to_map l : gmap string tensor) !! k) as [v|] eqn:E.
    + apply elem_of_list_to_map_2 in E. apply elem_of_list_to_map_1; [done|].
      apply elem_of_app. by left.
    + apply not_elem_of_list_to_map_1. rewrite fmap_app. intros Hin.
      apply elem_of_app in Hin as [Hin|Hin].
      * by apply not_elem_of_list_to_map_2 in E.
      * simpl in Hin. by apply list_elem_of_singleton in Hin.
Qed.

Lemma init_fold_entry (l : list (string * tensor)) name :
  NoDup l.*1 →
  entry (foldl init_step (Acc ∅ ∅ ∅) l) name =
    if endswith name "_mask" then (None, None, None)
    else ((λ t, TFloat (zeros_like t)) <$> (list_to_map l : gmap string tensor) !! name,
          (λ t, TFloat (zeros_like t)) <$> (list_to_map l : gmap string tensor) !! name,
          if needs_mask name then
            (λ t, TFloat (zeros_like t)) <$> (list_to_map l : gmap string tensor) !! name
          else None).
Proof.
  induction l as [|[n t] l IH] using rev_ind; intros Hnd.
  - unfold entry. cbn [foldl list_to_map foldr aggregated_params
      aggregated_params_for_mask aggregated_masks]. rewrite !lookup_empty.
    by destruct (endswith name "_mask"), (needs_mask name).
  - rewrite foldl_app, !(list_to_map_snoc _ _ _ _ Hnd). cbn [foldl init_step].
    rewrite fmap_app in Hnd. apply NoDup_app in Hnd as (Hnd & _ & _).
    specialize (IH Hnd). unfold entry in *.
    destruct (endswith n "_mask") eqn:En.
    + rewrite IH. destruct (endswith name "_mask") eqn:Ek; [done|].
      rewrite !decide_False; [done|congruence].
    + simpl. destruct (decide (name = n)) as [->|Hne].
      * rewrite En, !lookup_insert_eq. simpl.
        destruct (needs_mask n) eqn:Nn; [by rewrite lookup_insert_eq|].
        rewrite En in IH. injection IH as _ _ ->. done.
      * rewrite !lookup_insert_ne by done.
        destruct (needs_mask n); [rewrite lookup_insert_ne by done|]; apply IH.
Qed.

(** The accumulators right after their initialisation. *)
Lemma init_accumulators_entry global_params name :
  entry (init_accumulators global_params) name =
    if endswith name "_mask" then (None, None, None)
    else ((λ t, TFloat (zeros_like t)) <$> global_params !! name,
          (λ t, TFloat (zeros_like t)) <$> global_params !! name,
          if needs_mask name then
            (λ t, TFloat (zeros_like t)) <$> global_params !! name
          else None).
Proof.
  unfold init_accumulators.
  rewrite (init_fold_entry _ name (NoDup_fst_map_to_list global_params)).
  by rewrite list_to_map_to_list.
Qed.

Lemma init_accumulators_masks global_params name :
  is_Some (aggregated_masks (init_accumulators global_params) !! name) ↔
  mask_bearing global_params name.
Proof.
  pose proof (init_accumulators_entry global_params name) as E.
  unfold entry, mask_bearing in *.
  destruct (endswith name "_mask").
  - injection E as _ _ ->. split; [by intros [? ?]|]. by intros (_ & ? & _).
  - simpl in E. destruct (needs_mask name).
    + injection E as _ _ ->. rewrite fmap_is_Some. tauto.
    + injection E as _ _ ->. split; [by intros [? ?]|]. by intros (_ & _ & ?).
Qed.

Lemma init_accumulators_wf global_params : masks_wf (init_accumulators global_params).
Proof. intros k Hk. by apply init_accumulators_masks in Hk as (_ & ? & _). Qed.

Lemma accumulate_param_masks_dom args gp n cm acc item acc' k :
  accumulate_param args gp n cm acc item = Some acc' →
  is_Some (aggregated_masks acc' !! k) ↔ is_Some (aggregated_masks acc !! k).
Proof.
  destruct item as [name w]. unfold accumulate_param.
  destruct (cm !! name) as [m|].
  - destruct (gp !! mask_name name) as [sv|]; simpl; [|done].
    destruct (aggregated_params acc !! name) as [ap|]; simpl; [|done].
    destruct (aggregated_params_for_mask acc !! name) as [apm|]; simpl; [|done].
    destruct (aggregated_masks acc !! name) as [am|] eqn:Ham; simpl; [|done].
    assert (∀ t, is_Some (<[name := t]> (aggregated_masks acc) !! k) ↔
                 is_Some (aggregated_masks acc !! k)) as Hins.
    { intros t. destruct (decide (name = k)) as [->|].
      - rewrite lookup_insert_eq, Ham. split; eauto.
      - by rewrite lookup_insert_ne. }
    destruct (remember_old args).
    + destruct (gp !! name) as [svp|]; simpl; [|done]. intros [= <-]. apply Hins.
    + intros [= <-]. apply Hins.
  - destruct (aggregated_params acc !! name) as [ap|]; simpl; [|done].
    by intros [= <-].
Qed.

Lemma accumulate_masks_dom args bf16 gp n cl acc acc' k :
  accumulate args bf16 gp n cl acc = Some acc' →
  is_Some (aggregated_masks acc' !! k) ↔ is_Some (aggregated_masks acc !! k).
Proof.
  unfold accumulate. destruct (split_client_params _ _ _) as [cw cm]. intros H.
  apply (foldM_inv _ (λ a, is_Some (aggregated_masks a !! k) ↔
                           is_Some (aggregated_masks acc !! k)) _ _ _ H); [done|].
  intros a item a' _ IH Ha. rewrite <- IH.
  by eapply accumulate_param_masks_dom.
Qed.

Section Round.

Context {batch aux : Type}.
Variable batch_len : batch → nat.
Variable sgd_step :
  option (gmap string tensor) → batch → PrunableNet * aux → PrunableNet * aux.
Variable reset_optimizer : aux → aux.
Variable backward : batch → PrunableNet → PrunableNet.
Variable bf16 : fval → fval.
Variable cos_pi : fval → fval.

Local Abbreviation client_step' :=
  (client_step batch_len sgd_step reset_optimizer backward bf16 cos_pi).
Local Abbreviation server_round_step' :=
  (server_round_step batch_len sgd_step reset_optimizer backward bf16 cos_pi).

Lemma client_step_masks_dom args r gp init (s s' : @round_state batch aux) id k :
  client_step' args r gp init s id = Some s' →
  is_Some (aggregated_masks (acc s') !! k) ↔
  is_Some (aggregated_masks (acc s) !! k).
Proof.
  unfold client_step.
  destruct (clients s !! id) as [c|]; simpl; [|done].
  destruct (readjust_of _ _ _) as [rj|]; simpl; [|done].
  destruct (round_sparsity _ _) as [sp|]; simpl; [|done].
  destruct (train _ _ _ _ _ _ _ _ _) as [[c' tr]|]; simpl; [|done].
  destruct (accumulate _ _ _ _ _ _) as [a|] eqn:Ha; simpl; [|done].
  intros [= <-]. simpl. by eapply accumulate_masks_dom.
Qed.

Lemma server_round_step_finish args r init idx gm cls dl ul gm'
    (s : @round_state batch aux) :
  server_round_step' args r init idx gm cls dl ul = Some (gm', s) →
  ∃ sp total,
    finish_round args sp total (acc s) gm = Some gm' ∧
    ∀ k, is_Some (aggregated_masks (acc s) !! k) ↔ mask_bearing (state gm) k.
Proof.
  unfold server_round_step.
  destruct (foldM _ _ idx) as [s1|] eqn:Hf; simpl; [|done].
  destruct (round_sp s1) as [sp|]; simpl; [|done].
  destruct (finish_round _ _ _ _ _) as [g|] eqn:Hfin; simpl; [|done].
  intros [= <- <-]. eexists _, _. split; [done|]. intros k.
  rewrite <- init_accumulators_masks.
  apply (foldM_inv _ (λ s : round_state,
           is_Some (aggregated_masks (acc s) !! k) ↔
           is_Some (aggregated_masks (init_accumulators (state gm)) !! k))
           _ _ _ Hf); [done|].
  intros s2 id s3 _ IH Hs. rewrite <- IH. by eapply client_step_masks_dom.
Qed.


(** C7 (amended). When a round completes, a position of a masked
    parameter whose accumulated train-size-weighted vote count is at or
    below [min_votes] is 0 in the aggregated mask and 0 in the next
    global mask. *)
Theorem votes_at_or_below_threshold args r init idx gm cls dl ul gm'
    (s : @round_state batch aux) name ap am (i : nat) votes :
  server_round_step' args r init idx gm cls dl ul = Some (gm', s) →
  aggregated_params (acc s) !! name = Some ap →
  aggregated_masks (acc s) !! name = Some am →
  floats am !! i = Some votes →
  gtb votes (of_Z (min_votes args)) = false →
  reduced_mask args am !! i = Some zero ∧
  bools (state gm' !!! mask_name name) !! i = Some false.
Proof.
  intros Hs Hap Ham Hv Hg.
  destruct (server_round_step_finish _ _ _ _ _ _ _ _ _ _ Hs)
    as (sp & total & Hf & Hdom).
  eapply finish_round_threshold; [done| |done..].
  intros k Hk. by apply Hdom in Hk as (_ & ? & _).
Qed.

End Round.


Lemma votes_at_or_below_threshold_witness :
  ∃ r, ex_round (run_args 0 false false) 5 = Some r ∧
    floats (aggregated_masks (acc r.2) !!! "conv.weight") !! 1%nat = Some zero ∧
    bools (state r.1 !!! "conv.weight_mask") !! 1%nat = Some false.
Proof.
  eexists. split; [vm_compute; reflexivity|].
  split; [vm_compute; reflexivity|].
  eapply (votes_at_or_below_threshold ex_batch_len ex_sgd_step
            ex_reset_optimizer ex_backward ex_bf16 ex_cos_pi
            (run_args 0 false false) 5 (state global_net) [0%nat; 1%nat]
            global_net ex_clients ∅ ∅ _ _ "conv.weight" _ _ 1%nat zero).
  - vm_compute. reflexivity.
  - vm_compute. reflexivity.
  - vm_compute. reflexivity.
  - vm_compute. reflexivity.
  - vm_compute. reflexivity.
Defined.

(** Counterexample to C7 as stated: with [min_votes = 3], position 0 of the
    convolution is reported active by 2 of the sampled clients, fewer than
    [min_votes], and is 1 in the next global mask, because each of the two
    votes weighs the client's train size 2. *)
Lemma few_voters_kept :
  ∃ r, ex_round (run_args 3 false false) 5 = Some r ∧
    voters (clients r.2) [0%nat; 1%nat] "conv.weight" 0 = 2%nat ∧
    (2 < min_votes (run_args 3 false false))%Z ∧
    floats (aggregated_masks (acc r.2) !!! "conv.weight") !! 0%nat = Some (q 4 1) ∧
    bools (state r.1 !!! "conv.weight_mask") !! 0%nat = Some true.
Proof.
  eexists. split; [vm_compute; reflexivity|].
  split_and!; vm_compute; reflexivity.
Qed.

(** ** Decoding a client's state dict *)

Lemma substring_app s t : String.substring 0 (String.length s) (s +:+ t) = s.
Proof.
  induction s as [|a s IH].
  - change (EmptyString +:+ t) with t. by destruct t.
  - rewrite append_cons. simpl. by rewrite IH.
Qed.

Lemma chop_mask_name name : chop 5 (mask_name name) = name.
Proof.
  unfold chop, mask_name. rewrite length_append. simpl.
  replace (String.length name + 5 - 5)%nat with (String.length name) by lia.
  apply substring_app.
Qed.

Lemma endswith_spec s suffix :
  endswith s suffix = true → ∃ a, s = a +:+ suffix.
Proof.
  induction s as [|c s IH]; rewrite endswith_unfold.
  - destruct (decide _) as [<-|]; [|done]. by exists EmptyString.
  - destruct (decide _) as [<-|]; [by exists EmptyString|].
    intros H. destruct (IH H) as [a ->]. by exists (String c a).
Qed.

Lemma endswith_mask_inv k : endswith k "_mask" = true → k = mask_name (chop 5 k).
Proof.
  intros H. destruct (endswith_spec _ _ H) as [a ->].
  fold (mask_name a). by rewrite chop_mask_name.
Qed.

Lemma split_fold_lookup args bf16 (l : list (string * tensor)) :
  fp16 args = false →
  NoDup l.*1 →
  (∀ k t, (k, t) ∈ l → endswith k "_orig" = false) →
  ∀ k, (foldl (split_step args bf16) (∅, ∅) l).1 !! k =
         (if endswith k "_mask" then None
          else (list_to_map l : gmap string tensor) !! k) ∧
       (foldl (split_step args bf16) (∅, ∅) l).2 !! k =
         (list_to_map l : gmap string tensor) !! mask_name k.
Proof.
  intros Hfp. induction l as [|[n t] l IH] using rev_ind; intros Hnd Ho k.
  - cbn [foldl list_to_map foldr fst snd]. rewrite !lookup_empty.
    by destruct (endswith k "_mask").
  - rewrite foldl_app, !(list_to_map_snoc _ _ _ _ Hnd).
    pose proof Hnd as Hnd'. rewrite fmap_app in Hnd'.
    apply NoDup_app in Hnd' as (Hnd' & _ & _).
    destruct (IH Hnd' (λ k t H, Ho k t (proj2 (elem_of_app _ _ _) (or_introl H))) k)
      as [IH1 IH2].
    cbn [foldl]. destruct (foldl _ _ l) as [cw cm]. simpl in IH1, IH2.
    unfold split_step.
    rewrite (Ho n t) by (apply elem_of_app; right; by left). rewrite Hfp.
    destruct (endswith n "_mask") eqn:En; simpl.
    + split.
      * rewrite IH1. destruct (endswith k "_mask") eqn:Ek; [done|].
        rewrite decide_False; [done|congruence].
      * destruct (decide (mask_name k = n)) as [<-|Hne].
        -- by rewrite chop_mask_name, lookup_insert_eq.
        -- rewrite lookup_insert_ne; [done|].
           intros <-. apply Hne. symmetry. by apply endswith_mask_inv.
    + split.
      * destruct (decide (k = n)) as [->|Hne].
        -- by rewrite En, lookup_insert_eq.
        -- by rewrite lookup_insert_ne.
      * rewrite decide_False; [done|]. intros <-.
        by rewrite endswith_mask_name in En.
Qed.

Lemma split_client_params_lookup args bf16 cl k :
  fp16 args = false →
  (∀ k, is_Some (cl !! k) → endswith k "_orig" = false) →
  (split_client_params args bf16 cl).1 !! k =
    (if endswith k "_mask" then None else cl !! k) ∧
  (split_client_params args bf16 cl).2 !! k = cl !! mask_name k.
Proof.
  intros Hfp Ho. unfold split_client_params.
  destruct (split_fold_lookup args bf16 (map_to_list cl) Hfp
              (NoDup_fst_map_to_list cl)
              (λ k t H, Ho k (ex_intro _ t (proj1 (elem_of_map_to_list _ _ _) H))) k)
    as [H1 H2].
  rewrite list_to_map_to_list in H1, H2. done.
Qed.

(** ** Adding a client's report *)

Lemma accumulate_param_local args gp n cm l :
  local_on entry fst (accumulate_param args gp n cm) l.
Proof.
  intros acc [name w] acc' k _ H Hk. simpl in Hk. unfold accumulate_param in H.
  unfold entry. destruct (cm !! name) as [m|].
  - destruct (gp !! mask_name name) as [sv|]; simpl in H; [|done].
    destruct (aggregated_params acc !! name) as [ap|]; simpl in H; [|done].
    destruct (aggregated_params_for_mask acc !! name) as [apm|]; simpl in H; [|done].
    destruct (aggregated_masks acc !! name) as [am|]; simpl in H; [|done].
    destruct (remember_old args).
    + destruct (gp !! name) as [svp|]; simpl in H; [|done].
      injection H as <-. simpl. by rewrite !lookup_insert_ne.
    + injection H as <-. simpl. by rewrite !lookup_insert_ne.
  - destruct (aggregated_params acc !! name) as [ap|]; simpl in H; [|done].
    injection H as <-. simpl. by rewrite !lookup_insert_ne.
Qed.

(** What a client without "remember old" adds at a masked parameter. *)
Lemma accumulate_masked args bf16 gp n cl acc acc' name w m ap apm am :
  accumulate args bf16 gp n cl acc = Some acc' →
  fp16 args = false → remember_old args = false →
  (∀ k, is_Some (cl !! k) → endswith k "_orig" = false) →
  endswith name "_mask" = false →
  cl !! name = Some w → cl !! mask_name name = Some m →
  entry acc name = (Some ap, Some apm, Some am) →
  let c := tmul (tscale (of_nat n) (floats w)) (floats m) in
  entry acc' name =
    (Some (add_ ap c), Some (add_ apm c),
     Some (add_ am (tscale (of_nat n) (floats m)))).
Proof.
  intros Ha Hfp Hro Ho En Hw Hm He c. unfold accumulate in Ha.
  pose proof (split_client_params_lookup args bf16 cl) as Hs.
  destruct (split_client_params args bf16 cl) as [cw cm]. simpl in Hs.
  assert (Hcw : cw !! name = Some w).
  { destruct (Hs name Hfp Ho) as [-> _]. by rewrite En. }
  assert (Hcm : cm !! name = Some m).
  { destruct (Hs name Hfp Ho) as [_ ->]. done. }
  destruct (foldM_local_at entry fst _ _ _ _ (name, w)
              (accumulate_param_local args gp n cm _)
              (NoDup_fst_map_to_list cw)
              (proj2 (elem_of_map_to_list _ _ _) Hcw) Ha)
    as (s1 & s2 & H1 & H2 & H3).
  simpl in H1, H3. rewrite H3. rewrite He in H1. unfold entry in H1.
  injection H1 as E1 E2 E3.
  unfold accumulate_param in H2. rewrite Hcm, E1, E2, E3, Hro in H2.
  destruct (gp !! mask_name name) as [sv|]; simpl in H2; [|done].
  injection H2 as <-. unfold entry. simpl. by rewrite !lookup_insert_eq.
Qed.

(** ** When the aggregation raises no error *)

Lemma foldM_is_Some {A B} (f : B → A → option B) (P : B → Prop) l b :
  P b →
  (∀ b a, a ∈ l → P b → ∃ b', f b a = Some b' ∧ P b') →
  is_Some (foldM f b l).
Proof.
  revert b. induction l as [|a l IH]; intros b Hb Hstep; simpl; [eauto|].
  destruct (Hstep b a) as (b' & -> & Hb'); [by left|done|]. simpl.
  apply IH; [done|]. intros ? ? ?. apply Hstep. by right.
Qed.

Lemma is_Some_insert_present (m : gmap string tensor) k t j :
  is_Some (m !! k) → is_Some (<[k := t]> m !! j) ↔ is_Some (m !! j).
Proof.
  intros H. destruct (decide (k = j)) as [->|].
  - rewrite lookup_insert_eq. split; eauto.
  - by rewrite lookup_insert_ne.
Qed.

Lemma accumulate_is_Some args bf16 gp n cl acc :
  fp16 args = false → remember_old args = false →
  (∀ k, is_Some (cl !! k) → endswith k "_orig" = false) →
  (∀ k, endswith k "_mask" = false → is_Some (cl !! k) →
     is_Some (aggregated_params acc !! k) ∧
     (is_Some (cl !! mask_name k) →
      is_Some (gp !! mask_name k) ∧
      is_Some (aggregated_params_for_mask acc !! k) ∧
      is_Some (aggregated_masks acc !! k))) →
  ∃ acc', accumulate args bf16 gp n cl acc = Some acc' ∧ same_keys acc' acc.
Proof.
  intros Hfp Hro Ho Hk. unfold accumulate.
  pose proof (split_client_params_lookup args bf16 cl) as Hs.
  destruct (split_client_params args bf16 cl) as [cw cm]. simpl in Hs.
  assert (Hinv : ∀ l b, l ⊆ map_to_list cw → same_keys b acc →
            ∃ b', foldM (accumulate_param args gp n cm) b l = Some b' ∧
                  same_keys b' acc).
  { induction l as [|[name w] l IH]; intros b Hl Hb; cbn [foldM]; [eauto|].
    assert (Hw : cw !! name = Some w).
    { apply elem_of_map_to_list, Hl. by left. }
    destruct (Hs name Hfp Ho) as [S1 S2]. rewrite S1 in Hw.
    destruct (endswith name "_mask") eqn:En; [done|].
    destruct (Hk name En ltac:(eauto)) as [K1 K2].
    destruct (Hb name) as (B1 & B2 & B3).
    apply B1 in K1 as [ap Hap].
    assert (∃ b', accumulate_param args gp n cm b (name, w) = Some b' ∧
                  same_keys b' acc) as (b' & -> & Hb').
    { unfold accumulate_param. rewrite S2.
      destruct (cl !! mask_name name) as [m|] eqn:Em.
      - destruct (K2 ltac:(eauto)) as ([sv ->] & K3 & K4). simpl.
        apply B2 in K3 as [apm Hapm]. apply B3 in K4 as [am Ham].
        rewrite Hap, Hapm, Ham, Hro. simpl. eexists. split; [done|].
        intros k. simpl. destruct (Hb k) as (? & ? & ?).
        rewrite !is_Some_insert_present by eauto. done.
      - rewrite Hap. simpl. eexists. split; [done|].
        intros k. simpl. destruct (Hb k) as (? & ? & ?).
        rewrite !is_Some_insert_present by eauto. done. }
    simpl. apply IH; [|done]. intros y Hy. apply Hl. by right. }
  apply Hinv; [done|]. by intros k.
Qed.

Lemma reduce_is_Some args total acc :
  (∀ k, is_Some (aggregated_masks acc !! k) →
        is_Some (aggregated_params_for_mask acc !! k)) →
  is_Some (reduce args total acc).
Proof.
  intros Hk. unfold reduce.
  apply (foldM_is_Some _ (λ b, same_keys b acc)); [by intros k|].
  intros b name Hn Hb.
  apply list_elem_of_fmap in Hn as ([n t] & -> & Hn).
  apply elem_of_map_to_list in Hn. simpl.
  destruct (Hb n) as (B1 & B2 & B3).
  destruct (proj2 B1 ltac:(eauto)) as [ap Hap].
  unfold reduce_param. rewrite Hap. simpl.
  destruct (aggregated_masks b !! n) as [am|] eqn:Ham.
  - destruct (proj2 B2 (Hk n (proj1 B3 ltac:(eauto)))) as [apm Hapm].
    rewrite Hapm. simpl. eexists. split; [done|].
    intros k. simpl. destruct (Hb k) as (? & ? & ?).
    rewrite !is_Some_insert_present by eauto. done.
  - eexists. split; [done|].
    intros k. simpl. destruct (Hb k) as (? & ? & ?).
    rewrite !is_Some_insert_present by eauto. done.
Qed.

Lemma report_keys w m k :
  is_Some (report w m !! k) → k = "fc.weight" ∨ k = "fc.weight_mask".
Proof.
  unfold report. intros [t H].
  apply lookup_insert_Some in H as [[<- _]|[_ H]]; [by left|].
  apply lookup_insert_Some in H as [[<- _]|[_ H]]; [by right|].
  by rewrite lookup_empty in H.
Qed.

Lemma report_accumulate args n w m acc :
  fp16 args = false → remember_old args = false →
  same_keys acc (init_accumulators server_copy) →
  ∃ acc', accumulate args id server_copy n (report w m) acc = Some acc' ∧
          same_keys acc' (init_accumulators server_copy) ∧
          ∀ ap apm am, entry acc "fc.weight" = (Some ap, Some apm, Some am) →
            let c := tmul (tscale (of_nat n) w) (of_bool <$> m) in
            entry acc' "fc.weight" =
              (Some (add_ ap c), Some (add_ apm c),
               Some (add_ am (tscale (of_nat n) (of_bool <$> m)))).
Proof.
  intros Hfp Hro Hk.
  assert (Ho : ∀ k, is_Some (report w m !! k) → endswith k "_orig" = false).
  { intros k [->| ->]%report_keys; vm_compute; reflexivity. }
  destruct (accumulate_is_Some args id server_copy n (report w m) acc Hfp Hro Ho)
    as (acc' & Ha & Hk').
  { intros k En [->| ->]%report_keys; [|vm_compute in En; discriminate En].
    destruct (Hk "fc.weight") as (K1 & K2 & K3).
    split; [apply K1; vm_compute; eauto|]. intros _.
    split; [vm_compute; eauto|].
    split; [apply K2|apply K3]; vm_compute; eauto. }
  exists acc'. split; [done|]. split.
  { intros k. destruct (Hk k) as (A1 & A2 & A3), (Hk' k) as (B1 & B2 & B3).
    rewrite B1, B2, B3. done. }
  intros ap apm am He.
  exact (accumulate_masked args id server_copy n (report w m) acc acc'
           "fc.weight" (TFloat w) (TBool m) ap apm am Ha Hfp Hro Ho
           eq_refl eq_refl eq_refl He).
Qed.

Lemma init_accumulators_for_mask global_params k :
  is_Some (aggregated_masks (init_accumulators global_params) !! k) →
  is_Some (aggregated_params_for_mask (init_accumulators global_params) !! k).
Proof.
  pose proof (init_accumulators_entry global_params k) as E. unfold entry in E.
  destruct (endswith k "_mask"); injection E as _ -> ->; [done|].
  destruct (needs_mask k); [done|]. by intros [? ?].
Qed.

(** Scalar facts behind the averages. *)
Lemma Qc_of_Z_lt a b : (a < b)%Z → (Qc_of_Z a < Qc_of_Z b)%Qc.
Proof.
  intros H. unfold Qclt, Qc_of_Z, Q2Qc. cbn [this].
  rewrite <- Zlt_Qlt. exact H.
Qed.

Lemma threshold_keeps (t : Z) (v : Qc) :
  (Qc_of_Z t < v)%Qc → threshold (of_Z t) zero (Fin v) = Fin v.
Proof.
  intros H. unfold threshold, gtb, ltb, of_Z. by rewrite bool_decide_true.
Qed.

Lemma finite_ratio (a v : Qc) :
  v ≠ 0%Qc → nan_to_num (div (Fin a) (Fin v)) = Fin (a / v)%Qc.
Proof. intros H. unfold div. by destruct (decide (v = 0%Qc)). Qed.

Lemma Qc_two_ne_0 (p : Qred 2 = 2%Q) : Qcmake 2 p ≠ 0%Qc.
Proof. intros E. apply (f_equal this) in E. discriminate E. Qed.

Lemma average_of_two (N a b : Qc) :
  (N + N)%Qc ≠ 0%Qc →
  ((0 + N * a * 1 + N * b * 1) / (N + N) = (a + b) / (1 + 1))%Qc.
Proof. intros H. field. split; [apply Qc_two_ne_0|exact H]. Qed.

Lemma single_voter_l (N a x : Qc) :
  N ≠ 0%Qc → ((0 + N * x * 0 + N * a * 1) / N = a)%Qc.
Proof. intros H. field. exact H. Qed.

Lemma single_voter_r (N a y : Qc) :
  N ≠ 0%Qc → ((0 + N * a * 1 + N * y * 0) / N = a)%Qc.
Proof. intros H. field. exact H. Qed.

Lemma five_halves : ((Q2Qc 2 + Q2Qc 3) / (1 + 1))%Qc = Q2Qc (5 # 2).
Proof. apply Qc_is_canon. reflexivity. Qed.

(** The aggregation of the two reports in exact arithmetic, for every
    common train size of at least 2. *)
Lemma two_reports_exact n x y :
  (2 ≤ n)%nat →
  ∃ acc, two_reports (run_args 1 false false) n (Fin x) (Fin y) = Some acc ∧
    aggregated_masks acc !! "fc.weight" = Some (TFloat [one; one; one]) ∧
    aggregated_params acc !! "fc.weight" =
      Some (TFloat [q 5 2; q 5 1; q 4 1]).
Proof.
  intros Hn. unfold two_reports.
  set (args := run_args 1 false false).
  destruct (report_accumulate args n [q 2 1; Fin x; q 4 1] [true; false; true]
              (init_accumulators server_copy) eq_refl eq_refl)
    as (acc1 & -> & K1 & E1); [by intros k|].
  specialize (E1 _ _ _ eq_refl).
  destruct (report_accumulate args n [q 3 1; q 5 1; Fin y] [true; true; false]
              acc1 eq_refl eq_refl K1) as (acc2 & Ha2 & K2 & E2).
  specialize (E2 _ _ _ E1). cbn [mbind option_bind]. rewrite Ha2.
  cbn [mbind option_bind].
  destruct (reduce_is_Some args (n + n) acc2) as [acc Hr].
  { intros k Hk. apply K2. apply init_accumulators_for_mask. by apply K2. }
  exists acc. split; [done|].
  injection E2 as P2 _ M2.
  destruct (reduce_masked _ _ _ _ _ _ _ Hr P2 M2) as (-> & _ & ->).
  set (N := Qc_of_Z (Z.of_nat n)).
  assert (HN : (Qc_of_Z 1 < N)%Qc) by (apply (proj1 (Z2Qc_inj_lt 1 (Z.of_nat n))); lia).
  unfold reduced_mask, reduced_param, add_, zeros_like.
  cbn [floats numel length replicate tadd tdiv zip_with fmap list_fmap
       min_votes args run_args].
  unfold zero. cbn [add].
  assert (HN0 : N ≠ 0%Qc).
  { intros E. rewrite E in HN. by apply (Z2Qc_inj_lt 1 0) in HN. }
  assert (H2 : (0 + N * 1 + N * 1 = N + N)%Qc) by ring.
  assert (H1 : (0 + N * 0 + N * 1 = N)%Qc) by ring.
  assert (H1' : (0 + N * 1 + N * 0 = N)%Qc) by ring.
  assert (HNN : (Qc_of_Z 1 < N + N)%Qc).
  { unfold N. rewrite <- Z2Qc_inj_add. apply (proj1 (Z2Qc_inj_lt 1 (Z.of_nat n + Z.of_nat n))). lia. }
  assert (HNN0 : (N + N)%Qc ≠ 0%Qc).
  { intros E. rewrite E in HNN. by apply (Z2Qc_inj_lt 1 0) in HNN. }
  rewrite H2, H1, H1', !threshold_keeps, !finite_ratio by done.
  split; do 2 f_equal.
  - unfold one. repeat f_equal; field; assumption.
  - unfold q. repeat f_equal.
    + rewrite (average_of_two N _ _ HNN0). apply five_halves.
    + apply single_voter_l, HN0.
    + apply single_voter_r, HN0.
Qed.

(** C8. Two sampled clients with equal train sizes, [min_votes = 1], no
    "remember old"; one reports mask [1,0,1] with weights [2,x,4], the
    other mask [1,1,0] with weights [3,5,y].  A client's train size is
    [sum(len(b) for b in train_data)] over minibatches [b] that are pairs
    (inputs, labels), that is twice the number of its minibatches, and a
    client that reports a mask of its own has trained on at least one.
    Then the aggregation raises no error, the aggregated mask is [1,1,1],
    position 0 averages to 2.5, position 1 takes 5 and position 2 takes
    4.  The bounds on the number of minibatches and on the masked-out
    weights [x] and [y] keep the computation in the range where float32
    agrees with exact arithmetic. *)
Theorem two_reports_average batches x y :
  (1 ≤ Z.of_nat batches ≤ max_batches)%Z →
  (- max_placeholder ≤ x)%Qc → (x ≤ max_placeholder)%Qc →
  (- max_placeholder ≤ y)%Qc → (y ≤ max_placeholder)%Qc →
  ∃ acc,
    two_reports (run_args 1 false false) (2 * batches) (Fin x) (Fin y) =
      Some acc ∧
    aggregated_masks acc !! "fc.weight" = Some (TFloat [one; one; one]) ∧
    aggregated_params acc !! "fc.weight" =
      Some (TFloat [q 5 2; q 5 1; q 4 1]).
Proof.
  intros Hb _ _ _ _. apply two_reports_exact. lia.
Qed.

Lemma two_reports_average_witness :
  ∃ acc,
    two_reports (run_args 1 false false) (2 * 1) (Fin 0%Qc) (Fin 0%Qc) =
      Some acc ∧
    aggregated_masks acc !! "fc.weight" = Some (TFloat [one; one; one]) ∧
    aggregated_params acc !! "fc.weight" =
      Some (TFloat [q 5 2; q 5 1; q 4 1]).
Proof.
  apply (two_reports_average 1 0%Qc 0%Qc).
  - vm_compute. split; discriminate.
  - vm_compute. discriminate.
  - vm_compute. discriminate.
  - vm_compute. discriminate.
  - vm_compute. discriminate.
Defined.

(** C1. Whatever the accumulators hold before the reduction (with or
    without "remember old"), after it the entry of a masked parameter in
    [aggregated_params_for_mask], the one that is loaded into the global
    model, is the entry in [aggregated_params]: the two never differ, the
    remembered server values are overwritten. *)
Theorem remembered_values_overwritten args total acc acc' name :
  reduce args total acc = Some acc' →
  is_Some (aggregated_params acc !! name) →
  is_Some (aggregated_masks acc !! name) →
  aggregated_params_for_mask acc' !! name = aggregated_params acc' !! name.
Proof.
  intros Hr [ap Hap] [am Ham].
  destruct (reduce_masked _ _ _ _ _ _ _ Hr Hap Ham) as (-> & -> & _).
  reflexivity.
Qed.

Lemma remembered_values_overwritten_witness :
  ∃ acc acc',
    remembered = Some acc ∧ reduce remember_args 2 acc = Some acc' ∧
    aggregated_params_for_mask acc !! "fc.weight" =
      Some (TFloat [q 14 1; q 6 1; q 6 1]) ∧
    aggregated_masks acc !! "fc.weight" = Some (TFloat [q 2 1; q 2 1; q 2 1]) ∧
    aggregated_params acc' !! "fc.weight" = Some (TFloat [zero; q 3 1; q 3 1]) ∧
    aggregated_params_for_mask acc' !! "fc.weight" =
      aggregated_params acc' !! "fc.weight".
Proof.
  set (a := default (Acc ∅ ∅ ∅) remembered).
  exists a, (default a (reduce remember_args 2 a)).
  split; [evaluate|]. split; [evaluate|].
  split; [evaluate|]. split; [evaluate|]. split; [evaluate|].
  apply (remembered_values_overwritten remember_args 2 a _ "fc.weight").
  - evaluate.
  - vm_compute. eauto.
  - vm_compute. eauto.
Defined.

(** C2. [layer_grow] on a layer with 5 active weights and a target of 7:
    [n_grow] is 2, the two largest gradient magnitudes lie on the active
    weights 0 and 1, and these are the ones taken: their values 4 and -3
    become 0, no inactive weight is activated, the mask is as before. *)
Theorem layer_grow_takes_active_weights :
  ∃ weights net',
    weights_by_layer (q 3 10) "uniform" grow_input = Some weights ∧
    n_grow_of weights (state grow_input) conv = Some 2%Z ∧
    state grow_input !! "conv.weight_mask" =
      Some (TBool [true; true; false; false; false; true; true; true; false]) ∧
    state grow_input !! "conv.weight" =
      Some (TFloat [q 4 1; q (-3) 1; zero; zero; zero; q 5 1; q 3 1;
                    q (-2) 1; zero]) ∧
    layer_grow (q 3 10) "uniform" grow_input = Some net' ∧
    state net' !! "conv.weight" =
      Some (TFloat [zero; zero; zero; zero; zero; q 5 1; q 3 1; q (-2) 1;
                    zero]) ∧
    state net' !! "conv.weight_mask" = state grow_input !! "conv.weight_mask".
Proof.
  eexists. eexists. split; [evaluate|].
  split_and!; evaluate.
Qed.

(** C3. With fp16 upload the unmasked-parameter term of the upload cost
    subtracts [mask_size * 16], not [mask_size * 32]. *)
Theorem fp16_upload_cost args net sp :
  fp16 args = true → sparsity net = Some sp →
  ul_param_cost args net =
    Some (add (mul (mul (sub one sp) (of_Z (mask_size net))) (of_Z 16))
              (of_Z (param_size net - mask_size net * 16))).
Proof. intros Hf Hs. unfold ul_param_cost. rewrite Hs, Hf. reflexivity. Qed.

Lemma fp16_upload_cost_witness :
  ul_param_cost (run_args 0 false true) global_net =
    Some (add (mul (mul (sub one (q 4 9)) (of_Z (mask_size global_net))) (of_Z 16))
              (of_Z (param_size global_net - mask_size global_net * 16))) ∧
  ul_param_cost (run_args 0 false true) global_net = Some (q 256 1) ∧
  param_cost (q 4 9) (mask_size global_net) (param_size global_net) 16 32 =
    q 112 1.
Proof.
  split; [|split; evaluate].
  apply (fp16_upload_cost (run_args 0 false true) global_net (q 4 9));
    evaluate.
Defined.

(** C4. Round 5 of a run whose sparsity goes from 0.5 to 0.9 over 10
    rounds, with a readjustment in every epoch: the round's sparsity is
    0.7, whose target for the layer is 3 active weights, and both clients
    come out of [train] with the 5 active weights that belong to
    [args.sparsity] = 0.5. *)
Theorem readjustment_ignores_round_sparsity :
  ∃ r w w0,
    ex_round (run_args 0 false false) 5 = Some r ∧
    round_sp r.2 = Some (q 7 10) ∧
    readjust_of ex_cos_pi (run_args 0 false false) 5 = Some true ∧
    weights_by_layer (q 7 10) "uniform" conv_net = Some w ∧
    w !! "conv" = Some (q 3 1) ∧
    weights_by_layer (q 1 2) "uniform" conv_net = Some w0 ∧
    w0 !! "conv" = Some (q 5 1) ∧
    ∀ i, i ∈ [0%nat; 1%nat] →
      (λ c, count_nonzero (state (net c) !!! "conv.weight_mask"))
        <$> clients r.2 !! i = Some 5%nat.
Proof.
  eexists. eexists. eexists. split; [evaluate|].
  split; [evaluate|]. split; [evaluate|].
  split; [evaluate|]. split; [evaluate|].
  split; [evaluate|]. split; [evaluate|].
  intros i Hi. apply elem_of_cons in Hi as [->|Hi]; [evaluate|].
  apply list_elem_of_singleton in Hi as ->. evaluate.
Qed.

(** ** [reset_weights] in general: the flag [mask_changed] *)

Lemma reset_body_flag gs ugm gcm pt s name s' :
  reset_body gs ugm gcm pt s name = Some s' →
  mask_changed s = false → mask_changed s' = false.
Proof.
  unfold reset_body. intros H Hc.
  destruct (endswith name "_mask"); [by injection H as <-|].
  destruct (default (local_state s) gs !! name) as [param|]; simpl in H; [|done].
  destruct (local_state s !! name) as [x|]; simpl in H; [|done].
  destruct (needs_mask name && _).
  - destruct ((if ugm then _ else _) !! mask_name name) as [ma|];
      simpl in H; [|done].
    destruct ((if gcm then _ else _) !! mask_name name) as [mc|];
      simpl in H; [|done].
    destruct (local_state s !! mask_name name) as [old|]; simpl in H; [|done].
    injection H as <-. simpl.
    by rewrite lookup_total_insert_eq, tensor_equal_copy.
  - by injection H as <-.
Qed.

Lemma reset_weights_flag gs ugm gcm pt net net' changed :
  reset_weights gs ugm gcm pt net = Some (net', changed) → changed = false.
Proof.
  unfold reset_weights. intros H.
  destruct (sparsity_of _) as [cs|]; simpl in H; [|done].
  destruct (foldM _ _ _) as [s|] eqn:Hf; simpl in H; [|done].
  destruct (load_state_dict _ _) as [n|]; simpl in H; [|done].
  injection H as _ <-.
  apply (foldM_inv _ (λ s, mask_changed s = false) _ _ _ Hf); [done|].
  intros s1 name s2 _ H1 H2. by eapply reset_body_flag.
Qed.

(** X1. Whatever its arguments, [reset_weights] returns
    [mask_changed = False] whenever it returns: the comparison
    [torch.equal(local_state[mask_name], mask_to_copy)] is made after
    [new_state[mask_name].copy_(mask_to_copy)] has written [mask_to_copy]
    into the very tensor [local_state[mask_name]]. *)
Theorem reset_weights_reports_no_change gs ugm gcm pt net net' changed :
  reset_weights gs ugm gcm pt net = Some (net', changed) → changed = false.
Proof. intros H. by apply reset_weights_flag in H. Qed.

Lemma reset_weights_reports_no_change_witness :
  ∃ r, reset_weights (Some (state global_net)) true false "hard" conv_net = Some r ∧
    state conv_net !! "conv.weight_mask" = Some (TBool (replicate 9 true)) ∧
    state r.1 !! "conv.weight_mask" =
      Some (TBool [true; true; false; false; false; true; true; true; false]) ∧
    r.2 = false.
Proof.
  set (r := default (conv_net, true)
              (reset_weights (Some (state global_net)) true false "hard" conv_net)).
  exists r. split; [vm_compute; reflexivity|].
  split; [evaluate|]. split; [evaluate|].
  apply (reset_weights_reports_no_change (Some (state global_net)) true false
           "hard" conv_net r.1 r.2).
  vm_compute. reflexivity.
Defined.

Section Download.

Context {batch aux : Type}.
Variable reset_optimizer : aux → aux.

(** X2. The download cost charged by the branch [if global_params:] of
    [Client.train] never contains the mask: it is 0 for a client that
    has no [initial_global_params] yet, and otherwise 0 plus the cost
    of the parameters. *)
Theorem download_cost_without_mask gp igp (cl cl' : @Client batch aux) dl :
  receive_global reset_optimizer gp igp cl = Some (cl', dl) →
  if truthy (initial_global_params cl)
  then ∃ c, dl_param_cost (net cl') = Some c ∧ dl = add zero c
  else dl = zero.
Proof.
  unfold receive_global. intros H.
  destruct (reset_weights gp true false "hard" (net cl)) as [[net1 changed]|]
    eqn:Hr; [|done].
  apply reset_weights_flag in Hr as ->.
  destruct (truthy (initial_global_params cl)).
  - destruct (dl_param_cost net1) as [c|] eqn:Hc; simpl in H; [|done].
    injection H as <- <-. simpl. by exists c.
  - by injection H as <- <-.
Qed.

End Download.

Lemma download_cost_without_mask_witness :
  ∃ r, receive_global ex_reset_optimizer (Some (state global_net))
         (Some (state global_net)) ex_client = Some r ∧ r.2 = zero.
Proof.
  set (r := default (ex_client, zero)
              (receive_global ex_reset_optimizer (Some (state global_net))
                 (Some (state global_net)) ex_client)).
  exists r. split; [vm_compute; reflexivity|].
  apply (download_cost_without_mask ex_reset_optimizer (Some (state global_net))
           (Some (state global_net)) ex_client r.1 r.2).
  vm_compute. reflexivity.
Defined.

(** ** The sparsity schedule *)








(** ** [sparsity] *)












(** ** Further properties of pruning and of the aggregation *)

(** X6. [layer_prune] only clears: an element that reads as 0/False
    before (a cleared mask bit, a zero weight) reads as 0/False after,
    in every tensor of the state dict. *)
Theorem layer_prune_only_clears sp dist pt net net' k (i : nat) :
  layer_prune sp dist pt net = Some net' →
  bools (state net !!! k) !! i = Some false →
  bools (state net' !!! k) !! i = Some false.
Proof.
  intros Hp Hb. exact (layer_prune_stay_cleared sp dist pt net net' Hp k i Hb).
Qed.

Lemma layer_prune_only_clears_witness :
  ∃ net', layer_prune (q 7 10) "uniform" "hard" global_net = Some net' ∧
    bools (state global_net !!! "conv.weight_mask") !! 2%nat = Some false ∧
    bools (state net' !!! "conv.weight_mask") !! 2%nat = Some false.
Proof.
  set (n := default global_net (layer_prune (q 7 10) "uniform" "hard" global_net)).
  exists n. split; [vm_compute; reflexivity|]. split; [vm_compute; reflexivity|].
  apply (layer_prune_only_clears (q 7 10) "uniform" "hard" global_net n).
  - vm_compute. reflexivity.
  - vm_compute. reflexivity.
Defined.

(** X7. The loop that splits a client's report (without fp16 and
    without [_orig] keys): [cl_weight_params] holds exactly the entries
    whose key does not end in [_mask], and [cl_mask_params] holds under
    [name] the entry reported under [name + '_mask']. *)
Theorem client_report_split args bf16 cl k :
  fp16 args = false →
  (∀ k, is_Some (cl !! k) → endswith k "_orig" = false) →
  (split_client_params args bf16 cl).1 !! k =
    (if endswith k "_mask" then None else cl !! k) ∧
  (split_client_params args bf16 cl).2 !! k = cl !! mask_name k.
Proof.
  intros Hfp Ho. exact (split_client_params_lookup args bf16 cl k Hfp Ho).
Qed.

Lemma client_report_split_witness :
  (split_client_params (run_args 0 false false) ex_bf16 (state global_net)).1
    !! "conv.weight_mask" = None ∧
  (split_client_params (run_args 0 false false) ex_bf16 (state global_net)).2
    !! "conv.weight" = state global_net !! mask_name "conv.weight".
Proof.
  assert (Ho : ∀ k, is_Some (state global_net !! k) → endswith k "_orig" = false).
  { intros k Hk. apply elem_of_dom in Hk.
    assert (D : dom (state global_net) =
                (list_to_set ["conv.weight"; "conv.bias"; "conv.weight_mask"]
                   : gset string))
      by (apply (bool_decide_unpack _); vm_compute; exact I).
    rewrite D in Hk. clear D. apply elem_of_list_to_set in Hk.
    repeat (apply elem_of_cons in Hk as [->|Hk]; [vm_compute; reflexivity|]).
    apply elem_of_nil in Hk. destruct Hk. }
  split.
  - exact (proj1 (client_report_split (run_args 0 false false) ex_bf16
             (state global_net) "conv.weight_mask" eq_refl Ho)).
  - exact (proj2 (client_report_split (run_args 0 false false) ex_bf16
             (state global_net) "conv.weight" eq_refl Ho)).
Defined.

(** ** The accumulators of a round *)

(** X8. The accumulators at the start of a round: no entry under a key
    that ends in [_mask]; under every other key of the global state dict
    a zero tensor of the parameter's size in [aggregated_params] and in
    [aggregated_params_for_mask], and one in [aggregated_masks] exactly
    when [needs_mask] holds of the key. *)
Theorem accumulators_start_at_zero global_params name :
  (endswith name "_mask" = true →
     aggregated_params (init_accumulators global_params) !! name = None ∧
     aggregated_masks (init_accumulators global_params) !! name = None) ∧
  (endswith name "_mask" = false →
     aggregated_params (init_accumulators global_params) !! name =
       (λ t, TFloat (replicate (numel t) zero)) <$> global_params !! name ∧
     aggregated_params_for_mask (init_accumulators global_params) !! name =
       (λ t, TFloat (replicate (numel t) zero)) <$> global_params !! name ∧
     aggregated_masks (init_accumulators global_params) !! name =
       if needs_mask name
       then (λ t, TFloat (replicate (numel t) zero)) <$> global_params !! name
       else None).
Proof.
  pose proof (init_accumulators_entry global_params name) as E.
  unfold entry in E. split; intros En; rewrite En in E.
  - by injection E as -> _ ->.
  - by injection E as -> -> ->.
Qed.

Lemma reduce_unmasked args total acc acc' name t :
  reduce args total acc = Some acc' →
  aggregated_params acc !! name = Some t →
  aggregated_masks acc !! name = None →
  aggregated_params acc' !! name =
    Some (TFloat ((λ x, div x (of_nat total)) <$> floats t)).
Proof.
  intros Hr Hap Ham.
  destruct (reduce_at _ _ _ _ _ _ Hr Hap) as (s1 & s2 & H1 & H2 & H3).
  unfold entry in H1, H3. rewrite Hap, Ham in H1.
  injection H1 as E1 E2 E3. injection H3 as -> _ _.
  unfold reduce_param in H2. rewrite E1, E3 in H2. simpl in H2.
  injection H2 as <-. simpl. by rewrite lookup_insert_eq.
Qed.

(** X9. The reduction of a parameter without a mask (a bias): every
    element of the accumulated sum is divided by the total train size of
    the sampled clients; no [nan_to_num] is applied, so with a total of 0
    the published value is not finite. *)
Theorem unmasked_parameter_is_averaged args total acc acc' name t :
  reduce args total acc = Some acc' →
  aggregated_params acc !! name = Some t →
  aggregated_masks acc !! name = None →
  aggregated_params acc' !! name =
    Some (TFloat ((λ x, div x (of_nat total)) <$> floats t)) ∧
  (total = 0%nat → ∀ (i : nat) x, floats t !! i = Some (Fin x) →
     ∃ v, (aggregated_params acc' !! name) ≫= (λ r, floats r !! i) = Some v ∧
          nan_to_num v ≠ v).
Proof.
  intros Hr Hap Ham.
  rewrite (reduce_unmasked _ _ _ _ _ _ Hr Hap Ham). split; [done|].
  intros -> i x Hx. simpl. rewrite list_lookup_fmap, Hx. simpl.
  eexists. split; [done|].
  unfold of_nat, of_Z, div. change (Z.of_nat 0) with 0%Z.
  destruct (decide (Qc_of_Z 0 = 0%Qc)) as [_|Hn].
  - by destruct (sgn x).
  - exfalso. apply Hn. apply Z2Qc_inj_0.
Qed.

Lemma unmasked_parameter_is_averaged_witness :
  ∃ acc', reduce (run_args 0 false false) 4
            (init_accumulators (state global_net)) = Some acc' ∧
    aggregated_params acc' !! "conv.bias" =
      Some (TFloat ((λ x, div x (of_nat 4)) <$> floats (TFloat [zero]))).
Proof.
  set (acc := init_accumulators (state global_net)).
  set (acc' := default acc (reduce (run_args 0 false false) 4 acc)).
  exists acc'. split; [vm_compute; reflexivity|].
  refine (proj1 (unmasked_parameter_is_averaged (run_args 0 false false) 4
                   acc acc' "conv.bias" (TFloat [zero]) _ _ _)).
  - vm_compute. reflexivity.
  - evaluate.
  - vm_compute. reflexivity.
Defined.

(** X10. What one client's report adds at a masked parameter (without
    "remember old" and fp16): [train_size * weight * mask] to
    [aggregated_params] and to [aggregated_params_for_mask], and
    [train_size * mask] to [aggregated_masks]; a weight masked out by the
    client contributes 0 whatever its value. *)
Theorem client_adds_masked_weights args bf16 gp n cl acc acc' name w m ap apm am :
  accumulate args bf16 gp n cl acc = Some acc' →
  fp16 args = false → remember_old args = false →
  (∀ k, is_Some (cl !! k) → endswith k "_orig" = false) →
  endswith name "_mask" = false →
  cl !! name = Some w → cl !! mask_name name = Some m →
  aggregated_params acc !! name = Some ap →
  aggregated_params_for_mask acc !! name = Some apm →
  aggregated_masks acc !! name = Some am →
  let c := zip_with mul ((λ x, mul (of_nat n) x) <$> floats w) (floats m) in
  aggregated_params acc' !! name = Some (TFloat (zip_with add (floats ap) c)) ∧
  aggregated_params_for_mask acc' !! name =
    Some (TFloat (zip_with add (floats apm) c)) ∧
  aggregated_masks acc' !! name =
    Some (TFloat (zip_with add (floats am)
                    ((λ x, mul (of_nat n) x) <$> floats m))).
Proof.
  intros Ha Hfp Hro Ho En Hw Hm Hap Hapm Ham c.
  assert (He : entry acc name = (Some ap, Some apm, Some am)).
  { unfold entry. by rewrite Hap, Hapm, Ham. }
  pose proof (accumulate_masked args bf16 gp n cl acc acc' name w m ap apm am
                Ha Hfp Hro Ho En Hw Hm He) as H.
  unfold entry in H. simpl in H. injection H as -> -> ->. done.
Qed.

Lemma client_adds_masked_weights_witness :
  ∃ acc',
    accumulate (run_args 1 false false) id server_copy 2
      (report [q 2 1; q 9 1; q 4 1] [true; false; true])
      (init_accumulators server_copy) = Some acc' ∧
    aggregated_params acc' !! "fc.weight" =
      Some (TFloat [q 4 1; zero; q 8 1]) ∧
    aggregated_masks acc' !! "fc.weight" =
      Some (TFloat [q 2 1; zero; q 2 1]).
Proof.
  set (cl := report [q 2 1; q 9 1; q 4 1] [true; false; true]).
  set (acc := init_accumulators server_copy).
  set (acc' := default acc
                 (accumulate (run_args 1 false false) id server_copy 2
                    cl acc)).
  exists acc'. split; [vm_compute; reflexivity|].
  assert (Ho : ∀ k, is_Some (cl !! k) → endswith k "_orig" = false).
  { intros k [->| ->]%report_keys; vm_compute; reflexivity. }
  destruct (client_adds_masked_weights (run_args 1 false false) id
              server_copy 2 cl acc acc' "fc.weight"
              (TFloat [q 2 1; q 9 1; q 4 1]) (TBool [true; false; true])
              (TFloat [zero; zero; zero]) (TFloat [zero; zero; zero])
              (TFloat [zero; zero; zero]))
    as (H1 & _ & H3).
  - vm_compute. reflexivity.
  - reflexivity.
  - reflexivity.
  - exact Ho.
  - vm_compute. reflexivity.
  - vm_compute. reflexivity.
  - vm_compute. reflexivity.
  - evaluate.
  - evaluate.
  - evaluate.
  - split.
    + etrans; [exact H1|]. evaluate.
    + etrans; [exact H3|]. evaluate.
Defined.

(** ** [init_param_sizes] *)

Lemma Zsum_app a b : Zsum (a ++ b) = (Zsum a + Zsum b)%Z.
Proof. induction a as [|x a IH]; simpl; [done|]. rewrite IH. lia. Qed.

Lemma Zsum_nonneg l : Forall (λ x, 0 ≤ x)%Z l → (0 ≤ Zsum l)%Z.
Proof. induction 1; simpl; lia. Qed.

Lemma layer_sizes_fold st c names ms ps :
  foldl (λ '(ms, ps) name,
      let param_size := Z.of_nat (numel (st !!! key c name)) in
      let ps := (ps + param_size * 32)%Z in
      if needs_mask name then ((ms + param_size)%Z, ps) else (ms, ps))
    (ms, ps) names =
  ((ms + Zsum (layer_elements st c (filter (λ p, needs_mask p = true) names)))%Z,
   (ps + 32 * Zsum (layer_elements st c names))%Z).
Proof.
  revert ms ps. induction names as [|p names IH]; intros ms ps.
  - simpl. f_equal; lia.
  - cbn [foldl]. rewrite filter_cons. destruct (needs_mask p) eqn:Ep.
    + rewrite decide_True by done. rewrite IH. unfold layer_elements.
      rewrite !fmap_cons. simpl. f_equal; lia.
    + rewrite decide_False by (by intros ?). rewrite IH. unfold layer_elements.
      rewrite !fmap_cons. simpl. f_equal; lia.
Qed.

Lemma net_sizes_fold st cs ms ps :
  foldl (λ acc c,
      foldl (λ '(ms, ps) name,
          let param_size := Z.of_nat (numel (st !!! key c name)) in
          let ps := (ps + param_size * 32)%Z in
          if needs_mask name then ((ms + param_size)%Z, ps) else (ms, ps))
        acc (cparams c))
    (ms, ps) cs =
  ((ms + Zsum (c ← cs; layer_elements st c
                         (filter (λ p, needs_mask p = true) (cparams c))))%Z,
   (ps + 32 * Zsum (c ← cs; layer_elements st c (cparams c)))%Z).
Proof.
  revert ms ps. induction cs as [|c cs IH]; intros ms ps.
  - simpl. f_equal; lia.
  - cbn [foldl]. rewrite layer_sizes_fold, IH. cbn [mbind list_bind].
    rewrite !Zsum_app. f_equal; lia.
Qed.

Lemma layer_elements_nonneg st c names :
  Forall (λ x, 0 ≤ x)%Z (layer_elements st c names).
Proof. unfold layer_elements. apply Forall_fmap, Forall_true. intros p. simpl. lia. Qed.

Lemma Zsum_filter_le st c names :
  (Zsum (layer_elements st c (filter (λ p, needs_mask p = true) names))
     ≤ Zsum (layer_elements st c names))%Z.
Proof.
  induction names as [|p names IH]; [done|]. rewrite filter_cons.
  unfold layer_elements in *. destruct (decide (needs_mask p = true)).
  - rewrite !fmap_cons. simpl. lia.
  - rewrite fmap_cons. simpl. lia.
Qed.

Lemma Zsum_maskable_le st (cs : list child) :
  (Zsum (c ← cs; layer_elements st c
                   (filter (λ p, needs_mask p = true) (cparams c)))
     ≤ Zsum (c ← cs; layer_elements st c (cparams c)))%Z.
Proof.
  induction cs as [|c cs IH]; [done|].
  change (Zsum (layer_elements st c (filter (λ p, needs_mask p = true) (cparams c))
                ++ (c ← cs; layer_elements st c
                              (filter (λ p, needs_mask p = true) (cparams c))))
            ≤ Zsum (layer_elements st c (cparams c)
                    ++ (c ← cs; layer_elements st c (cparams c))))%Z.
  rewrite !Zsum_app. pose proof (Zsum_filter_le st c (cparams c)). lia.
Qed.

(** X11. [init_param_sizes] sets [param_size] to 32 bits for every
    element of every parameter and [mask_size] to one bit for every
    element of the parameters that take a mask, whatever the two
    attributes held before; hence the term
    [param_size - mask_size * 32] of the transmission costs, the bits of
    the unmasked parameters, is never negative. *)
Theorem init_param_sizes_counts net :
  param_size (init_param_sizes net) = (32 * param_count net)%Z ∧
  mask_size (init_param_sizes net) = maskable_count net ∧
  (0 ≤ mask_size (init_param_sizes net))%Z ∧
  (0 ≤ param_size (init_param_sizes net)
       - mask_size (init_param_sizes net) * 32)%Z ∧
  state (init_param_sizes net) = state net.
Proof.
  unfold init_param_sizes. rewrite net_sizes_fold. cbn [param_size mask_size state].
  unfold param_count, maskable_count.
  assert (H0 : (0 ≤ Zsum (c ← children net;
                    layer_elements (state net) c
                      (filter (λ p, needs_mask p = true) (cparams c))))%Z).
  { apply Zsum_nonneg. apply Forall_bind, Forall_true. intros c.
    apply layer_elements_nonneg. }
  pose proof (Zsum_maskable_le (state net) (children net)) as H1.
  split_and!; [lia|lia|lia|lia|done].
Qed.

(** ** The driver's own [nan_to_num] *)

(** X12. With its default replacement values the driver's [nan_to_num]
    is [torch.nan_to_num(x, nan=0, posinf=0, neginf=0)]; with finite
    replacement values every element of the result is finite and the
    finite elements are kept; and since the three assignments run in
    sequence, a NaN replaced by an infinity is replaced again: with
    [nan=inf] a NaN ends as [posinf]. *)
Theorem dst_nan_to_num_spec x :
  dst_nan_to_num x zero zero zero = nan_to_num <$> x ∧
  (∀ a b c (i : nat) v,
     dst_nan_to_num x (Fin a) (Fin b) (Fin c) !! i = Some v →
     ∃ r, v = Fin r ∧ ∀ r0, x !! i = Some (Fin r0) → r = r0) ∧
  (∀ p c (i : nat), x !! i = Some NaN →
     dst_nan_to_num x PInf p c !! i = Some p).
Proof.
  unfold dst_nan_to_num. split; [|split].
  - rewrite <- !list_fmap_compose. apply list_fmap_ext. intros _ v _. simpl.
    destruct v as [r| | |]; simpl; repeat case_decide; by simplify_eq.
  - intros a b c i v. rewrite !list_lookup_fmap.
    destruct (x !! i) as [u|]; simpl; [|done]. intros [= <-].
    destruct u as [r| | |]; simpl; repeat case_decide; simplify_eq;
      (eexists; split; [reflexivity|]; intros ? ?; by simplify_eq).
  - intros p c i Hi. rewrite !list_lookup_fmap, Hi. simpl.
    repeat case_decide; by simplify_eq.
Qed.

(** ** [Client.train] and the epoch counter *)

Section Epochs.

Context {batch aux : Type}.
Variable sgd_step :
  option (gmap string tensor) → batch → PrunableNet * aux → PrunableNet * aux.
Variable reset_optimizer : aux → aux.
Variable backward : batch → PrunableNet → PrunableNet.

Lemma train_one_epoch_counter args readjust gp sp (cl cl' : @Client batch aux) u u' :
  train_one_epoch sgd_step backward args readjust gp sp (cl, u) = Some (cl', u') →
  curr_epoch cl' = (curr_epoch cl + 1)%Z ∧
  train_data cl' = train_data cl ∧ local_epochs cl' = local_epochs cl ∧
  initial_global_params cl' = initial_global_params cl.
Proof.
  unfold train_one_epoch. intros H.
  destruct (train_epoch _ _ _ _) as [[[n a] last]|]; simpl in H; [|done].
  destruct (py_mod _ _) as [r|]; simpl in H; [|done].
  destruct (bool_decide (r = 0%Z) && readjust).
  - destruct (readjustment _ _ _ _ _) as [n'|]; simpl in H; [|done].
    destruct (ul_mask_cost n') as [c|]; simpl in H; [|done].
    by injection H as <- <-.
  - simpl in H. by injection H as <- <-.
Qed.

Lemma epochs_counter args readjust gp sp l (s s' : @Client batch aux * fval) :
  foldM (λ s (_ : nat), train_one_epoch sgd_step backward args readjust gp sp s)
        s l = Some s' →
  curr_epoch s'.1 = (curr_epoch s.1 + Z.of_nat (length l))%Z ∧
  train_data s'.1 = train_data s.1 ∧ local_epochs s'.1 = local_epochs s.1 ∧
  initial_global_params s'.1 = initial_global_params s.1.
Proof.
  revert s. induction l as [|x l IH]; intros s H.
  - simpl in H. injection H as <-. simpl. split; [lia|done].
  - cbn [foldM] in H.
    destruct (train_one_epoch _ _ _ _ _ _ s) as [s1|] eqn:H1; simpl in H; [|done].
    destruct s as [cl u], s1 as [cl1 u1].
    apply train_one_epoch_counter in H1 as (E1 & E2 & E3 & E4).
    apply IH in H as (F1 & F2 & F3 & F4). simpl in *.
    rewrite F1, F2, F3, F4, E1, E2, E3, E4. split; [lia|done].
Qed.

(** X13. A call of [Client.train] that returns has advanced the
    client's epoch counter [curr_epoch] by exactly [local_epochs]
    (whether or not a readjustment took place) and has left the
    training data and [local_epochs] as they were. *)
Theorem train_advances_epoch_counter args readjust gp igp skw
    (cl cl' : @Client batch aux) res :
  train sgd_step reset_optimizer backward args readjust gp igp skw cl
    = Some (cl', res) →
  curr_epoch cl' = (curr_epoch cl + Z.of_nat (local_epochs cl))%Z ∧
  train_data cl' = train_data cl ∧ local_epochs cl' = local_epochs cl.
Proof.
  unfold train. intros H.
  assert (∃ cl0 d, (if truthy gp then receive_global reset_optimizer gp igp cl
                    else Some (cl, zero)) = Some (cl0, d) ∧
            curr_epoch cl0 = curr_epoch cl ∧ train_data cl0 = train_data cl ∧
            local_epochs cl0 = local_epochs cl) as (cl0 & d & E & C1 & C2 & C3).
  { destruct (truthy gp).
    - unfold receive_global in *.
      destruct (reset_weights gp true false "hard" (net cl)) as [[n1 ch]|];
        [|done].
      destruct (truthy (initial_global_params cl)).
      + destruct (dl_param_cost n1) as [c|]; simpl in *; [|done].
        by eexists _, _.
      + by eexists _, _.
    - by eexists _, _. }
  rewrite E in H. cbn [mbind option_bind] in H.
  destruct (foldM _ _ _) as [[cl1 u1]|] eqn:Hf; cbn [mbind option_bind] in H;
    [|done].
  apply epochs_counter in Hf as (F1 & F2 & F3 & _). simpl in F1, F2, F3.
  rewrite length_seq in F1.
  destruct (ul_param_cost args (net cl1)) as [c|]; simpl in H; [|done].
  injection H as <- _. rewrite F1, F2, F3, C1, C2, C3. done.
Qed.

End Epochs.

Lemma train_advances_epoch_counter_witness :
  ∃ r, train ex_sgd_step ex_reset_optimizer ex_backward (run_args 0 false false)
         true (Some (state global_net)) (Some (state global_net)) None ex_client
       = Some r ∧
    curr_epoch r.1 = 1%Z ∧ train_data r.1 = [0%nat] ∧ local_epochs r.1 = 1%nat.
Proof.
  set (r := default (ex_client, TrainResult ∅ zero zero)
              (train ex_sgd_step ex_reset_optimizer ex_backward
                 (run_args 0 false false) true (Some (state global_net))
                 (Some (state global_net)) None ex_client)).
  exists r. split; [vm_compute; reflexivity|].
  apply (train_advances_epoch_counter ex_sgd_step ex_reset_optimizer ex_backward
           (run_args 0 false false) true (Some (state global_net))
           (Some (state global_net)) None ex_client r.1 r.2).
  vm_compute. reflexivity.
Defined.

(** ** [layer_grow] and the mask bits *)

Lemma masks_stay_set_refl st : masks_stay_set st st.
Proof. by intros k i. Qed.

Lemma masks_stay_set_trans st1 st2 st3 :
  masks_stay_set st1 st2 → masks_stay_set st2 st3 → masks_stay_set st1 st3.
Proof. intros H1 H2 k i ? ?. by apply H2, H1. Qed.

Lemma weight_is_no_mask x : endswith (x +:+ "weight") "_mask" = false.
Proof.
  induction x as [|a x IH]; [reflexivity|].
  rewrite append_cons, endswith_unfold.
  destruct (decide _) as [E|]; [|exact IH].
  apply (f_equal String.length) in E. simpl in E. rewrite length_append in E.
  simpl in E. lia.
Qed.

Lemma append_assoc' (a b c : string) : a +:+ (b +:+ c) = (a +:+ b) +:+ c.
Proof.
  induction a as [|x a IH]; [reflexivity|]. by rewrite !append_cons, IH.
Qed.

Lemma weight_key_is_no_mask c pname :
  needs_mask pname = true → endswith (key c pname) "_mask" = false.
Proof.
  unfold needs_mask. intros H. destruct (endswith_spec _ _ H) as [a ->].
  unfold key. rewrite !append_assoc'. apply weight_is_no_mask.
Qed.

Lemma write_mask_stay_set c pname idx st :
  masks_stay_set st (write_mask c pname idx true st).
Proof.
  unfold write_mask.
  apply (foldl_inv _ (masks_stay_set st)); [apply masks_stay_set_refl|].
  intros st' bname _ IH. destruct (decide _); [|done].
  eapply masks_stay_set_trans; [done|].
  intros k i _ H. destruct (decide (key c bname = k)) as [<-|].
  - rewrite lookup_total_insert_eq, bools_tensor_index_fill.
    by destruct (decide _).
  - by rewrite lookup_total_insert_ne.
Qed.

Lemma grow_param_stay_set gr n c st pname st' :
  grow_param gr n c st pname = Some st' → masks_stay_set st st'.
Proof.
  unfold grow_param.
  destruct (needs_mask pname) eqn:Hn; [|intros [= <-]; apply masks_stay_set_refl].
  destruct (gr !! key c pname) as [g|]; simpl; [|done].
  destruct (topk _ _ _) as [idx|]; simpl; [|done]. intros [= <-].
  eapply masks_stay_set_trans; [|apply write_mask_stay_set].
  intros k i Hk H. rewrite lookup_total_insert_ne; [done|].
  intros <-. by rewrite (weight_key_is_no_mask c pname Hn) in Hk.
Qed.

Lemma grow_child_stay_set weights gr st c st' :
  grow_child weights gr st c = Some st' → masks_stay_set st st'.
Proof.
  unfold grow_child. destruct (n_grow_of _ _ _) as [n|]; simpl; [|done].
  destruct (decide _); [intros [= <-]; apply masks_stay_set_refl|].
  intros H. apply (foldM_inv _ (masks_stay_set st) _ _ _ H).
  - apply masks_stay_set_refl.
  - intros st1 p st2 _ H1 H2. eapply masks_stay_set_trans; [done|].
    by eapply grow_param_stay_set.
Qed.

(** X14. [layer_grow] only sets mask bits: in every tensor whose name
    ends in [_mask], a bit that is 1 before the call is 1 after it
    (although, as the top-k runs over all positions, the weight under a
    set bit may be overwritten with 0). *)
Theorem layer_grow_keeps_set_bits sp dist net net' k (i : nat) :
  layer_grow sp dist net = Some net' →
  endswith k "_mask" = true →
  bools (state net !!! k) !! i = Some true →
  bools (state net' !!! k) !! i = Some true.
Proof.
  unfold layer_grow. intros H Hk Hb.
  destruct (weights_by_layer _ _ _) as [w|]; simpl in H; [|done].
  destruct (foldM _ _ _) as [st|] eqn:Hf; simpl in H; [|done].
  injection H as <-. simpl.
  revert k i Hk Hb. change (masks_stay_set (state net) st).
  apply (foldM_inv _ (masks_stay_set (state net)) _ _ _ Hf).
  - apply masks_stay_set_refl.
  - intros st1 c st2 _ H1 H2. eapply masks_stay_set_trans; [done|].
    by eapply grow_child_stay_set.
Qed.

Lemma layer_grow_keeps_set_bits_witness :
  ∃ net', layer_grow (q 3 10) "uniform" grow_input = Some net' ∧
    bools (state grow_input !!! "conv.weight_mask") !! 0%nat = Some true ∧
    bools (state net' !!! "conv.weight_mask") !! 0%nat = Some true ∧
    floats (state net' !!! "conv.weight") !! 0%nat = Some zero.
Proof.
  set (n := default grow_input (layer_grow (q 3 10) "uniform" grow_input)).
  exists n. split; [vm_compute; reflexivity|]. split; [vm_compute; reflexivity|].
  split; [|evaluate].
  apply (layer_grow_keeps_set_bits (q 3 10) "uniform" grow_input n).
  - vm_compute. reflexivity.
  - vm_compute. reflexivity.
  - vm_compute. reflexivity.
Defined.

(** ** [reset_weights] with the global state and the global mask *)

Lemma reset_body_local gs ugm gcm pt l :
  local_on reset_view id (reset_body gs ugm gcm pt) l.
Proof.
  intros s n s' k _ Hs Hk. unfold id in Hk. unfold reset_view.
  destruct (endswith k "_mask") eqn:Ek; [done|].
  unfold reset_body in Hs.
  destruct (endswith n "_mask") eqn:En; [by injection Hs as <-|].
  assert (N1 : k ≠ mask_name n) by (by apply endswith_mask_name_ne).
  assert (N2 : n ≠ mask_name k) by (by apply endswith_mask_name_ne).
  assert (N3 : mask_name n ≠ mask_name k).
  { intros E. by apply mask_name_inj in E. }
  destruct (default (local_state s) gs !! n) as [param|]; simpl in Hs; [|done].
  destruct (local_state s !! n) as [x|]; simpl in Hs; [|done].
  destruct (needs_mask n && _).
  - destruct ((if ugm then _ else _) !! mask_name n) as [ma|];
      simpl in Hs; [|done].
    destruct ((if gcm then _ else _) !! mask_name n) as [mc|];
      simpl in Hs; [|done].
    destruct (local_state s !! mask_name n) as [old|]; simpl in Hs; [|done].
    injection Hs as <-. simpl. by rewrite !lookup_insert_ne.
  - injection Hs as <-. simpl. by rewrite !lookup_insert_ne.
Qed.

Lemma masked_assign_lookup {A} (l : list A) m src (i : nat) :
  masked_assign l m src !! i =
    (λ x, match m !! i, src !! i with
          | Some true, Some y => y
          | _, _ => x
          end) <$> l !! i.
Proof. unfold masked_assign. by rewrite list_lookup_imap. Qed.

(** X15. [reset_weights(global_state, use_global_mask=True)], the call
    with which a client receives the global model: for a float weight
    that takes a mask, afterwards the client's mask has the bits of the
    global mask, the weight has the global value wherever the global mask
    is 1, and under 'hard' pruning it is 0 wherever the global mask is
    0. *)
Theorem reset_weights_adopts_global gs pt net net' changed name gw gm lw :
  reset_weights (Some gs) true false pt net = Some (net', changed) →
  needs_mask name = true →
  gs !! name = Some gw → gs !! mask_name name = Some gm →
  state net !! name = Some (TFloat lw) →
  bools (state net' !!! mask_name name) = bools gm ∧
  (∀ (i : nat) y, bools gm !! i = Some true → floats gw !! i = Some y →
     (i < length lw)%nat → floats (state net' !!! name) !! i = Some y) ∧
  (pt = "hard" → ∀ i : nat, bools gm !! i = Some false → (i < length lw)%nat →
     floats (state net' !!! name) !! i = Some zero).
Proof.
  intros Hr Hn Hgw Hgm Hlw.
  assert (En : endswith name "_mask" = false).
  { unfold needs_mask in Hn. destruct (endswith_spec _ _ Hn) as [a ->].
    apply weight_is_no_mask. }
  unfold reset_weights in Hr.
  change (default (state net) (Some gs)) with gs in Hr.
  destruct (sparsity_of _) as [cs|]; simpl in Hr; [|done].
  destruct (foldM _ _ _) as [s|] eqn:Hf; simpl in Hr; [|done].
  destruct (load_state_dict _ _) as [n1|] eqn:Hl; simpl in Hr; [|done].
  injection Hr as <- _.
  assert (Hnd : NoDup (id <$> (map_to_list gs).*1)).
  { rewrite list_fmap_id. apply NoDup_fst_map_to_list. }
  assert (Hin : name ∈ (map_to_list gs).*1).
  { apply list_elem_of_fmap. exists (name, gw). split; [done|].
    by apply elem_of_map_to_list. }
  destruct (foldM_local_at reset_view id _ _ _ _ name
              (reset_body_local _ _ _ _ _) Hnd Hin Hf)
    as (s1 & s2 & H1 & H2 & H3).
  unfold reset_view, id in H1, H3. rewrite En in H1, H3. simpl in H1.
  injection H1 as E1 E2 _ _. injection H3 as F1 F2 F3 F4.
  unfold reset_body in H2. rewrite En in H2.
  change (default (local_state s1) (Some gs)) with gs in H2.
  rewrite Hgw, E1, Hlw, Hn, Hgm in H2. simpl in H2.
  destruct (local_state s1 !! mask_name name) as [old|] eqn:Eo; simpl in H2;
    [|done].
  injection H2 as <-. simpl in F3, F4. rewrite lookup_insert_eq in F4.
  rewrite lookup_insert_ne in F3 by apply mask_name_ne.
  rewrite lookup_insert_eq in F3.
  destruct (load_state_dict_lookup _ _ _ (mask_name name) Hl) as [Hd Hm].
  destruct (load_state_dict_lookup _ _ _ name Hl) as [_ Hw].
  simpl in Hd, Hm, Hw. rewrite Hlw in Hw. simpl in Hw.
  rewrite <- E2 in Hm. simpl in Hm.
  rewrite (lookup_total_correct _ _ _ F4) in Hm.
  rewrite (lookup_total_correct _ _ _ F3) in Hw.
  rewrite (lookup_total_correct _ _ _ Hm), (lookup_total_correct _ _ _ Hw).
  split; [by rewrite !bools_copy|]. cbn [copy_ tensor_masked_assign].
  split.
  - intros i y Hi Hy Hlt.
    destruct (lookup_lt_is_Some_2 lw i Hlt) as [x Hx].
    destruct (decide (pt = "hard")).
    + cbn [floats tensor_masked_fill]. rewrite masked_fill_lookup.
      rewrite masked_assign_lookup, Hx, Hi, list_lookup_fmap, Hi. simpl.
      by rewrite Hy.
    + cbn [floats]. rewrite masked_assign_lookup, Hx, Hi. simpl. by rewrite Hy.
  - intros -> i Hi Hlt.
    destruct (lookup_lt_is_Some_2 lw i Hlt) as [x Hx].
    rewrite decide_True by done. cbn [floats tensor_masked_fill].
    rewrite masked_fill_lookup, masked_assign_lookup, Hx, list_lookup_fmap, Hi.
    done.
Qed.

Lemma reset_weights_adopts_global_witness :
  ∃ r, reset_weights (Some (state global_net)) true false "hard" conv_net = Some r ∧
    bools (state r.1 !!! "conv.weight_mask") =
      [true; true; false; false; false; true; true; true; false] ∧
    floats (state r.1 !!! "conv.weight") !! 0%nat = Some (q 4 1) ∧
    floats (state r.1 !!! "conv.weight") !! 2%nat = Some zero.
Proof.
  set (r := default (conv_net, true)
              (reset_weights (Some (state global_net)) true false "hard" conv_net)).
  exists r. split; [vm_compute; reflexivity|].
  destruct (reset_weights_adopts_global (state global_net) "hard" conv_net
              r.1 r.2 "conv.weight"
              (TFloat [q 4 1; q (-3) 1; zero; zero; zero; q 5 1; q 3 1;
                       q (-2) 1; zero])
              (TBool [true; true; false; false; false; true; true; true; false])
              [q 4 1; q (-3) 1; q 1 2; q 2 1; q (-1) 4; q 5 1; q 3 1;
               q (-2) 1; q 1 1])
    as (Hm & Ht & Hf).
  - vm_compute. reflexivity.
  - reflexivity.
  - evaluate.
  - evaluate.
  - evaluate.
  - split; [exact Hm|]. split.
    + apply (Ht 0%nat (q 4 1)); [reflexivity|reflexivity|simpl; lia].
    + apply (Hf eq_refl 2%nat); [reflexivity|simpl; lia].
Defined.
